(** * Pointcheval-Sanders signatures (ps.go): a shallow embedding

    The Go package [ps] is written against the [pairing.Suite] interface of
    the kyber library.  The interface is rendered as a type class, the six
    exported functions of ps.go as functions over any instance of it, and the
    properties are proved from the algebraic laws of a pairing suite.  A small
    prime-order instance (the integers modulo 13 with the product as
    pairing) shows that the laws can be met and lets every statement be run
    on concrete keys. *)

From Stdlib Require Import String.
From Stdlib Require Import ZArith NArith List Bool Lia.
From Stdlib Require Import Strings.Byte.
From Stdlib Require Import Zmod.
Import ListNotations.

Set Implicit Arguments.

(** ** Go values *)

(** [[]byte] *)
Definition bytes : Type := list byte.

(** The [error] values that leave the package: the two it creates itself and
    whatever a [MarshalBinary] / [UnmarshalBinary] of the suite hands back,
    which ps.go returns unchanged. *)
Inductive error : Type :=
| ErrNeedTwoRandoms                (* fmt.Errorf("need minimum two random numbers") *)
| ErrInvalidSignature              (* errors.New("ps: invalid signature") *)
| ErrEncoding (msg : string).      (* err of the suite's (un)marshalling *)

(** What a call of the suite returns: a value, or the library's error. *)
Inductive result (A : Type) : Type :=
| Done (a : A)
| Failed (msg : string).
Arguments Done {A} a.
Arguments Failed {A} msg.

(** What a call of the package does: return a value with a nil error,
    return an error, or stop in a run-time panic (index out of range). *)
Inductive outcome (A : Type) : Type :=
| Ret (a : A)
| Fail (e : error)
| Panic.
Arguments Ret {A} a.
Arguments Fail {A} e.
Arguments Panic {A}.

Definition bind {A B : Type} (m : outcome A) (k : A -> outcome B) : outcome B :=
  match m with
  | Ret a => k a
  | Fail e => Fail e
  | Panic => Panic
  end.

Declare Scope go_scope.
Delimit Scope go_scope with go.
Notation "x <- m ;; k" := (bind m (fun x => k))
  (at level 61, m at next level, right associativity) : go_scope.
Open Scope go_scope.

(** [v, err := f(); if err != nil { return ..., err }] *)
Definition try {A : Type} (r : result A) : outcome A :=
  match r with
  | Done a => Ret a
  | Failed msg => Fail (ErrEncoding msg)
  end.

(** [s[i]] on a slice: a panic outside [0, len(s)). *)
Definition index {A : Type} (s : list A) (i : nat) : outcome A :=
  match nth_error s i with
  | Some a => Ret a
  | None => Panic
  end.

(** ** The kyber interfaces *)

(** [kyber.Group] with the methods of [kyber.Point] that ps.go calls. *)
Record Group (Scalar : Type) : Type := {
  Point : Type;
  NewPoint : Point;                          (* G.Point() *)
  Base : Point;                              (* the standard base point *)
  Add : Point -> Point -> Point;             (* Point().Add(a, b) *)
  Mul : Scalar -> Point -> Point;            (* Point().Mul(s, p) *)
  MarshalBinary : Point -> result bytes;
  UnmarshalBinary : bytes -> result Point
}.

(** [pairing.Suite].  [G1().Scalar()] and [G2().Scalar()] are one static type
    ([kyber.Scalar]) in ps.go and are used interchangeably there, so the
    suite has one scalar type. *)
Class Suite : Type := {
  Scalar : Type;
  Stream : Type;                             (* cipher.Stream *)
  NewScalar : Scalar;                        (* G.Scalar() *)
  ScalarAdd : Scalar -> Scalar -> Scalar;    (* Scalar().Add(a, b) *)
  ScalarMul : Scalar -> Scalar -> Scalar;    (* Scalar().Mul(a, b) *)
  SetBytes : bytes -> Scalar;                (* Scalar().SetBytes(b) *)
  Pick : Stream -> Scalar;                   (* Scalar().Pick(rand) *)
  ScalarMarshal : Scalar -> result bytes;
  ScalarUnmarshal : bytes -> result Scalar;
  G1 : Group Scalar;
  G2 : Group Scalar;
  GT : Type;
  Pair : Point G1 -> Point G2 -> GT;         (* suite.Pair(p1, p2) *)
  Equal : GT -> GT -> bool                   (* left.Equal(right) *)
}.

(** ** ps.go *)

Section Code.
Context {suite : Suite}.

(** First loop of [NewKeyPair]: one marshalled scalar per stream.  Which
    scalar a stream yields plays no part in what follows. *)
Fixpoint NewKeyPair_pri (randoms : list Stream) : outcome (list bytes) :=
  match randoms with
  | [] => Ret []
  | r :: rest =>
      Pkey <- try (ScalarMarshal (Pick r)) ;;
      PriKey <- NewKeyPair_pri rest ;;
      Ret (Pkey :: PriKey)
  end.

(** Second loop of [NewKeyPair]: [g2^Pkey], marshalled, per private entry. *)
Fixpoint NewKeyPair_pub (PriKey : list bytes) : outcome (list bytes) :=
  match PriKey with
  | [] => Ret []
  | b :: rest =>
      Pkey <- try (ScalarUnmarshal b) ;;
      binPub <- try (MarshalBinary G2 (Mul G2 Pkey (Base G2))) ;;
      PubKey <- NewKeyPair_pub rest ;;
      Ret (binPub :: PubKey)
  end.

Definition NewKeyPair (randoms : list Stream) : outcome (list bytes * list bytes) :=
  if (length randoms <? 2)%nat then Fail ErrNeedTwoRandoms
  else
    PriKey <- NewKeyPair_pri randoms ;;
    PubKey <- NewKeyPair_pub PriKey ;;
    Ret (PriKey, PubKey).

(** [Sign]; [h] is the point drawn by [Pick(suite.RandomStream())]. *)
Definition Sign (priKey : list Scalar) (msg : bytes) (h : Point G1)
  : outcome (list bytes) :=
  binH <- try (MarshalBinary G1 h) ;;
  k1 <- index priKey 1 ;;
  let y := ScalarMul k1 (SetBytes msg) in
  k0 <- index priKey 0 ;;
  let x := ScalarAdd k0 y in
  let hX := Mul G1 x h in
  binHx <- try (MarshalBinary G1 hX) ;;
  Ret [binH; binHx].

(** The [for i, msg := range msgs] loop of [BatchSign], from index [i] on
    with accumulator [y]. *)
Fixpoint BatchSign_loop (priKey : list Scalar) (i : nat) (msgs : list bytes)
  (y : Scalar) : outcome Scalar :=
  match msgs with
  | [] => Ret y
  | msg :: rest =>
      let msgScalar := SetBytes msg in
      k <- index priKey (i + 1) ;;
      BatchSign_loop priKey (S i) rest (ScalarAdd y (ScalarMul k msgScalar))
  end.

Definition BatchSign (priKey : list Scalar) (msgs : list bytes) (h : Point G1)
  : outcome (list bytes) :=
  binH <- try (MarshalBinary G1 h) ;;
  y <- BatchSign_loop priKey 0 msgs NewScalar ;;
  k0 <- index priKey 0 ;;
  let x := ScalarAdd k0 y in
  let hX := Mul G1 x h in
  binHx <- try (MarshalBinary G1 hX) ;;
  Ret [binH; binHx].

(** [AggreSign]; [t] is the scalar drawn by [Pick(random.New())]. *)
Definition AggreSign (priKey : list Scalar) (msg : bytes) (t : Scalar)
  : outcome (list bytes) :=
  let sigma1 := Mul G1 t (Base G1) in
  binSigma1 <- try (MarshalBinary G1 sigma1) ;;
  let msgScalar := SetBytes msg in
  k1 <- index priKey 1 ;;
  let y := ScalarMul k1 msgScalar in
  k0 <- index priKey 0 ;;
  let x := ScalarAdd k0 y in
  let v := ScalarMul x t in
  let sigma2 := Mul G1 v (Base G1) in
  binSigma2 <- try (MarshalBinary G1 sigma2) ;;
  Ret [binSigma1; binSigma2].

Definition Verify (pubKey : list (Point G2)) (msg : bytes) (S : list bytes)
  : outcome unit :=
  let msgScalar := SetBytes msg in
  p1 <- index pubKey 1 ;;
  let Y := Mul G2 msgScalar p1 in
  p0 <- index pubKey 0 ;;
  let X := Add G2 Y p0 in
  b1 <- index S 0 ;;
  s1 <- try (UnmarshalBinary G1 b1) ;;
  let left := Pair s1 X in
  b2 <- index S 1 ;;
  s2 <- try (UnmarshalBinary G1 b2) ;;
  let right := Pair s2 (Base G2) in
  if negb (Equal left right) then Fail ErrInvalidSignature else Ret tt.

(** The [for i, msg := range msgs] loop of [PSBatchVerify]. *)
Fixpoint PSBatchVerify_loop (pubKey : list (Point G2)) (i : nat)
  (msgs : list bytes) (Y : Point G2) : outcome (Point G2) :=
  match msgs with
  | [] => Ret Y
  | msg :: rest =>
      let msgScalar := SetBytes msg in
      p <- index pubKey (i + 1) ;;
      PSBatchVerify_loop pubKey (S i) rest (Add G2 Y (Mul G2 msgScalar p))
  end.

Definition PSBatchVerify (pubKey : list (Point G2)) (msgs : list bytes)
  (S : list bytes) : outcome unit :=
  Y <- PSBatchVerify_loop pubKey 0 msgs (NewPoint G2) ;;
  p0 <- index pubKey 0 ;;
  let X := Add G2 Y p0 in
  b1 <- index S 0 ;;
  s1 <- try (UnmarshalBinary G1 b1) ;;
  let left := Pair s1 X in
  b2 <- index S 1 ;;
  s2 <- try (UnmarshalBinary G1 b2) ;;
  let right := Pair s2 (Base G2) in
  if negb (Equal left right) then Fail ErrInvalidSignature else Ret tt.

(** [AggregatePSSign]; [t] is the scalar drawn by [Pick(random.New())]. *)
Definition AggregatePSSign (priKey : Scalar) (S : list bytes) (msg : bytes)
  (t : Scalar) : outcome (list bytes) :=
  b1 <- index S 0 ;;
  s1 <- try (UnmarshalBinary G1 b1) ;;
  binSigma1 <- try (MarshalBinary G1 (Mul G1 t s1)) ;;
  let msgScalar := SetBytes msg in
  let y := ScalarMul priKey msgScalar in
  let sigma_1 := Mul G1 y s1 in
  b2 <- index S 1 ;;
  s2 <- try (UnmarshalBinary G1 b2) ;;
  let sigma_2 := Add G1 sigma_1 s2 in
  binSigma2 <- try (MarshalBinary G1 (Mul G1 t sigma_2)) ;;
  Ret [binSigma1; binSigma2].

End Code.

(** ** Around the package: how its callers use it *)

Section Callers.
Context {suite : Suite}.

(** [NewKeyPair] hands back marshalled keys while the signing functions
    take [[]kyber.Scalar] and the verifying ones [[]kyber.Point]: the
    caller decodes every entry with the suite's [UnmarshalBinary]. *)
Fixpoint decodeScalars (PriKey : list bytes) : outcome (list Scalar) :=
  match PriKey with
  | [] => Ret []
  | b :: rest =>
      k <- try (ScalarUnmarshal b) ;;
      ks <- decodeScalars rest ;;
      Ret (k :: ks)
  end.

Fixpoint decodePoints (G : Group Scalar) (bs : list bytes)
  : outcome (list (Point G)) :=
  match bs with
  | [] => Ret []
  | b :: rest =>
      p <- try (UnmarshalBinary G b) ;;
      ps <- decodePoints G rest ;;
      Ret (p :: ps)
  end.

(** A sequential aggregation as the tests run it: [AggreSign] by the first
    signer, then one [AggregatePSSign] per later signer; a link is that
    signer's scalar, message and drawn [t]. *)
Fixpoint extend (S : list bytes) (links : list (Scalar * bytes * Scalar))
  : outcome (list bytes) :=
  match links with
  | [] => Ret S
  | (y, msg, t) :: rest =>
      S' <- AggregatePSSign y S msg t ;;
      extend S' rest
  end.

Definition aggregate (priKey : list Scalar) (msg : bytes) (t : Scalar)
  (links : list (Scalar * bytes * Scalar)) : outcome (list bytes) :=
  AS <- AggreSign priKey msg t ;;
  extend AS links.

(** The exponent a chain has accumulated: [E + sum of y_i * m_i]. *)
Fixpoint chain_exponent (E : Scalar) (links : list (Scalar * bytes * Scalar))
  : Scalar :=
  match links with
  | [] => E
  | (y, msg, _) :: rest =>
      chain_exponent (ScalarAdd E (ScalarMul y (SetBytes msg))) rest
  end.

(** The G2 element the verifiers pair sigma_1 with, [X * prod Y_i^(m_i)]
    over the public-key slots [i+1] onwards, and its exponent on the
    private side. *)
Fixpoint key_product (Ys : list (Point G2)) (msgs : list bytes)
  (acc : Point G2) {struct msgs} : Point G2 :=
  match msgs, Ys with
  | msg :: msgs', Y :: Ys' =>
      key_product Ys' msgs' (Add G2 acc (Mul G2 (SetBytes msg) Y))
  | _, _ => acc
  end.

Fixpoint key_sum (ys : list Scalar) (msgs : list bytes) (acc : Scalar)
  {struct msgs} : Scalar :=
  match msgs, ys with
  | msg :: msgs', y :: ys' =>
      key_sum ys' msgs' (ScalarAdd acc (ScalarMul y (SetBytes msg)))
  | _, _ => acc
  end.

(** The lines both verifiers run once [X] is computed: decode the two
    components, pair, compare. *)
Definition verdict (X : Point G2) (S : list bytes) : outcome unit :=
  b1 <- index S 0 ;;
  s1 <- try (UnmarshalBinary G1 b1) ;;
  b2 <- index S 1 ;;
  s2 <- try (UnmarshalBinary G1 b2) ;;
  if negb (Equal (Pair s1 X) (Pair s2 (Base G2)))
  then Fail ErrInvalidSignature else Ret tt.

(** The error a verifier gives for a tampered component [b]: the suite's
    own when [b] no longer decodes, the package's otherwise. *)
Definition tamper_error (b : bytes) : error :=
  match UnmarshalBinary G1 b with
  | Failed msg => ErrEncoding msg
  | Done _ => ErrInvalidSignature
  end.

(** [g2^k], the public entry of the private scalar [k]. *)
Definition public_of (k : Scalar) : Point G2 := Mul G2 k (Base G2).

(** [PublicKey[i] = g2^PrivateKey[i]] at every index. *)
Definition matching (sk : list Scalar) (pk : list (Point G2)) : Prop :=
  Forall2 (fun k P => P = public_of k) sk pk.

(** A signature whose two components decode to [sigma1] and [sigma2]. *)
Definition decodes_to (S : list bytes) (sigma1 sigma2 : Point G1) : Prop :=
  exists b1 b2, S = [b1; b2]
    /\ UnmarshalBinary G1 b1 = Done sigma1
    /\ UnmarshalBinary G1 b2 = Done sigma2.

(** What the links of a chain carry: the signers' scalars and messages, and
    the point sigma_1 has become once every link has raised it to its [t]. *)
Definition link_scalars (links : list (Scalar * bytes * Scalar)) : list Scalar :=
  map (fun l => fst (fst l)) links.

Definition link_msgs (links : list (Scalar * bytes * Scalar)) : list bytes :=
  map (fun l => snd (fst l)) links.

Fixpoint chain_point (s1 : Point G1) (links : list (Scalar * bytes * Scalar))
  : Point G1 :=
  match links with
  | [] => s1
  | (_, _, t) :: rest => chain_point (Mul G1 t s1) rest
  end.

End Callers.

(** [bs[i] ^= mask], as the tests tamper with a signature component; a panic
    when [i] is outside the slice. *)
Definition xor_byte (b mask : byte) : byte :=
  match Byte.of_N (N.lxor (Byte.to_N b) (Byte.to_N mask)) with
  | Some c => c
  | None => b
  end.

Fixpoint xor_at (bs : bytes) (i : nat) (mask : byte) : outcome bytes :=
  match bs, i with
  | [], _ => Panic
  | b :: rest, O => Ret (xor_byte b mask :: rest)
  | b :: rest, S j => rest' <- xor_at rest j mask ;; Ret (b :: rest')
  end.

(** The mask with only bit [k] set, for [k < 8]. *)
Definition bit_mask (k : nat) : byte :=
  match Byte.of_N (N.shiftl 1 (N.of_nat (k mod 8))) with
  | Some c => c
  | None => x01
  end.

(** Flip bit [pos] of a byte string: bit [pos mod 8] of byte [pos / 8]. *)
Definition flip_bit (bs : bytes) (pos : nat) : outcome bytes :=
  xor_at bs (pos / 8) (bit_mask pos).

(** ** The laws of a pairing suite *)

(** A group written additively in kyber: [Add] is the group operation and
    [Mul] the action of the scalars. *)
Record GroupLaws {Scalar : Type} (sadd smul : Scalar -> Scalar -> Scalar)
  (G : Group Scalar) : Prop := {
  Add_comm : forall P Q, Add G P Q = Add G Q P;
  Add_assoc : forall P Q R, Add G P (Add G Q R) = Add G (Add G P Q) R;
  Add_NewPoint_l : forall P, Add G (NewPoint G) P = P;
  Mul_sadd : forall a b P, Mul G (sadd a b) P = Add G (Mul G a P) (Mul G b P);
  Mul_smul : forall a b P, Mul G a (Mul G b P) = Mul G (smul a b) P;
  Mul_Add : forall a P Q, Mul G a (Add G P Q) = Add G (Mul G a P) (Mul G a Q);
  Marshal_total : forall P, exists b, MarshalBinary G P = Done b;
  Marshal_inv : forall P b, MarshalBinary G P = Done b -> UnmarshalBinary G b = Done P
}.

Class SuiteLaws (suite : Suite) : Prop := {
  ScalarAdd_comm : forall a b, ScalarAdd a b = ScalarAdd b a;
  ScalarAdd_assoc : forall a b c,
    ScalarAdd a (ScalarAdd b c) = ScalarAdd (ScalarAdd a b) c;
  ScalarAdd_NewScalar_l : forall a, ScalarAdd NewScalar a = a;
  ScalarMul_comm : forall a b, ScalarMul a b = ScalarMul b a;
  ScalarMul_assoc : forall a b c,
    ScalarMul a (ScalarMul b c) = ScalarMul (ScalarMul a b) c;
  ScalarMul_add_l : forall a b c,
    ScalarMul (ScalarAdd a b) c = ScalarAdd (ScalarMul a c) (ScalarMul b c);
  ScalarMarshal_total : forall a, exists b, ScalarMarshal a = Done b;
  ScalarMarshal_inv : forall a b, ScalarMarshal a = Done b -> ScalarUnmarshal b = Done a;
  G1_laws : GroupLaws ScalarAdd ScalarMul G1;
  G2_laws : GroupLaws ScalarAdd ScalarMul G2;
  Pair_Mul : forall a P Q, Pair (Mul G1 a P) Q = Pair P (Mul G2 a Q);
  Equal_eq : forall u v, Equal u v = true <-> u = v
}.

(** The pairing of a prime-order suite does not collapse: against a point
    of G2 other than the identity it tells the points of G1 apart. *)
Class NonDegenerate (suite : Suite) : Prop := {
  Pair_cancel : forall P P' Q,
    Pair P Q = Pair P' Q -> P = P' \/ Q = NewPoint G2;
  Base_not_null : Base G2 <> NewPoint G2
}.

(** What a flipped bit does to the encoding of a G1 point.  The encoding
    holds the coordinates of the point, so a flipped bit changes one of them
    by a power of two: the bytes may stop being an encoding, or encode
    another point, but never the point they came from.  Nothing is asked of
    byte strings that [MarshalBinary] does not produce, which a decoder may
    accept in more than one form per point. *)
Class FlipSensitive (suite : Suite) : Prop := {
  flip_moves_point : forall P b pos b' P',
    MarshalBinary G1 P = Done b -> flip_bit b pos = Ret b' ->
    UnmarshalBinary G1 b' = Done P' -> P' <> P
}.

(** The fresh scalar is the zero of the field: it sends every point to the
    fresh point of its group. *)
Class ZeroLaws (suite : Suite) : Prop := {
  Mul_NewScalar_G1 : forall P, Mul G1 NewScalar P = NewPoint G1;
  Mul_NewScalar_G2 : forall Q, Mul G2 NewScalar Q = NewPoint G2
}.

(** ** A small suite: the integers modulo the prime 13 *)

Module Toy.

Definition p : Z := 13.

Definition F : Type := Zmod p.

(** One byte per element; the bytes from 13 on are not encodings. *)
Definition enc (a : F) : result bytes :=
  match Byte.of_N (Z.to_N (Zmod.to_Z a)) with
  | Some b => Done [b]
  | None => Failed "element out of range"
  end.

Definition dec (bs : bytes) : result F :=
  match bs with
  | [b] =>
      let n := Z.of_N (Byte.to_N b) in
      if (n <? p)%Z then Done (Zmod.of_Z p n) else Failed "malformed element"
  | _ => Failed "wrong length"
  end.

(** Big-endian bytes, reduced. *)
Definition of_bytes (bs : bytes) : F :=
  Zmod.of_Z p (fold_left (fun acc b => (acc * 256 + Z.of_N (Byte.to_N b))%Z) bs 0%Z).

Definition group : Group F := {|
  Point := F;
  NewPoint := Zmod.zero;
  Base := Zmod.one;
  Add := Zmod.add;
  Mul := Zmod.mul;
  MarshalBinary := enc;
  UnmarshalBinary := dec
|}.

Definition suite : Suite := {|
  Scalar := F;
  Stream := Z;
  NewScalar := Zmod.zero;
  ScalarAdd := Zmod.add;
  ScalarMul := Zmod.mul;
  SetBytes := of_bytes;
  Pick := Zmod.of_Z p;
  ScalarMarshal := enc;
  ScalarUnmarshal := dec;
  G1 := group;
  G2 := group;
  GT := F;
  Pair := Zmod.mul;
  Equal := Zmod.eqb
|}.

Definition el (z : Z) : F := Zmod.of_Z p z.

(** A key pair, a message and a few random draws to run the code on. *)
Definition randoms : list Z := [4; 7; 9; 11]%Z.
Definition sk : list F := [el 4; el 7; el 9; el 11].
Definition pk : list F := [el 4; el 7; el 9; el 11].
Definition PriKey : list bytes := [[x04]; [x07]; [x09]; [x0b]].
Definition PubKey : list bytes := [[x04]; [x07]; [x09]; [x0b]].
Definition hello : bytes := [x48; x65; x6c; x6c; x6f].
Definition m2 : bytes := [x50; x53].
Definition m3 : bytes := [x33].

End Toy.


Unset Implicit Arguments.

(** ** Properties that hold of the code alone *)

Section Structure.
Context {suite : Suite}.

Lemma index_nth_error {A : Type} (s : list A) (i : nat) (a : A) :
  index s i = Ret a <-> nth_error s i = Some a.
Proof.
  unfold index. destruct (nth_error s i); split; intro H;
    inversion H; reflexivity.
Qed.

Lemma index_in_range {A : Type} (s : list A) (i : nat) :
  i < length s -> exists a, index s i = Ret a.
Proof.
  intro H. unfold index.
  destruct (nth_error s i) eqn:E; [eauto|].
  apply nth_error_None in E. lia.
Qed.

Lemma index_out_of_range {A : Type} (s : list A) (i : nat) :
  length s <= i -> index s i = Panic.
Proof.
  intro H. unfold index.
  destruct (nth_error s i) eqn:E; [|reflexivity].
  assert (nth_error s i <> None) as N by congruence.
  apply nth_error_Some in N. lia.
Qed.

Lemma Verify_verdict pubKey msg S :
  Verify pubKey msg S =
    (p1 <- index pubKey 1 ;; p0 <- index pubKey 0 ;;
     verdict (Add G2 (Mul G2 (SetBytes msg) p1) p0) S).
Proof. reflexivity. Qed.

Lemma PSBatchVerify_verdict pubKey msgs S :
  PSBatchVerify pubKey msgs S =
    (Y <- PSBatchVerify_loop pubKey 0 msgs (NewPoint G2) ;;
     p0 <- index pubKey 0 ;; verdict (Add G2 Y p0) S).
Proof. reflexivity. Qed.

(** The signing loop reads [priKey[i+1 ..]] and nothing else. *)
Lemma BatchSign_loop_safe priKey msgs : forall i y,
  i + length msgs < length priKey \/ msgs = [] ->
  BatchSign_loop priKey i msgs y
    = Ret (key_sum (skipn (i + 1) priKey) msgs y).
Proof.
  induction msgs as [|msg rest IH]; intros i y H.
  - reflexivity.
  - destruct H as [H|H]; [|discriminate]. cbn [length] in H.
    cbn [BatchSign_loop].
    destruct (index_in_range priKey (i + 1)) as [k Hk]; [lia|].
    rewrite Hk. cbn [bind].
    rewrite IH by (left; lia).
    apply index_nth_error in Hk.
    rewrite <- (firstn_skipn (i + 1) priKey) in Hk.
    rewrite nth_error_app2 in Hk by (rewrite length_firstn; lia).
    rewrite length_firstn, Nat.min_l, Nat.sub_diag in Hk by lia.
    replace (S i + 1) with (1 + (i + 1)) by lia.
    rewrite <- skipn_skipn.
    destruct (skipn (i + 1) priKey) as [|k' tl]; [discriminate|].
    cbn in Hk. inversion Hk; subst k'. reflexivity.
Qed.

Lemma BatchSign_loop_panics priKey msgs : forall i y,
  length priKey <= i + length msgs -> msgs <> [] ->
  BatchSign_loop priKey i msgs y = Panic.
Proof.
  induction msgs as [|msg rest IH]; intros i y H N; [congruence|].
  cbn [length] in H. cbn [BatchSign_loop].
  destruct (Nat.le_gt_cases (length priKey) (i + 1)) as [Hle|Hgt].
  - rewrite index_out_of_range by assumption. reflexivity.
  - destruct (index_in_range priKey (i + 1)) as [k Hk]; [lia|].
    rewrite Hk. cbn [bind]. apply IH; [lia|].
    destruct rest; [cbn [length] in H; lia|discriminate].
Qed.

Lemma PSBatchVerify_loop_safe pubKey msgs : forall i Y,
  i + length msgs < length pubKey \/ msgs = [] ->
  PSBatchVerify_loop pubKey i msgs Y
    = Ret (key_product (skipn (i + 1) pubKey) msgs Y).
Proof.
  induction msgs as [|msg rest IH]; intros i Y H.
  - reflexivity.
  - destruct H as [H|H]; [|discriminate]. cbn [length] in H.
    cbn [PSBatchVerify_loop].
    destruct (index_in_range pubKey (i + 1)) as [k Hk]; [lia|].
    rewrite Hk. cbn [bind].
    rewrite IH by (left; lia).
    apply index_nth_error in Hk.
    rewrite <- (firstn_skipn (i + 1) pubKey) in Hk.
    rewrite nth_error_app2 in Hk by (rewrite length_firstn; lia).
    rewrite length_firstn, Nat.min_l, Nat.sub_diag in Hk by lia.
    replace (S i + 1) with (1 + (i + 1)) by lia.
    rewrite <- skipn_skipn.
    destruct (skipn (i + 1) pubKey) as [|k' tl]; [discriminate|].
    cbn in Hk. inversion Hk; subst k'. reflexivity.
Qed.

Lemma PSBatchVerify_loop_panics pubKey msgs : forall i Y,
  length pubKey <= i + length msgs -> msgs <> [] ->
  PSBatchVerify_loop pubKey i msgs Y = Panic.
Proof.
  induction msgs as [|msg rest IH]; intros i Y H N; [congruence|].
  cbn [length] in H. cbn [PSBatchVerify_loop].
  destruct (Nat.le_gt_cases (length pubKey) (i + 1)) as [Hle|Hgt].
  - rewrite index_out_of_range by assumption. reflexivity.
  - destruct (index_in_range pubKey (i + 1)) as [k Hk]; [lia|].
    rewrite Hk. cbn [bind]. apply IH; [lia|].
    destruct rest; [cbn [length] in H; lia|discriminate].
Qed.

(** The first component of a signature is the encoding of the drawn [h]. *)
Lemma Sign_first_component priKey msg h b1 b2 :
  Sign priKey msg h = Ret [b1; b2] -> MarshalBinary G1 h = Done b1.
Proof.
  unfold Sign.
  destruct (MarshalBinary G1 h) as [c|]; cbn [try bind]; [|discriminate].
  destruct (index priKey 1); cbn [bind]; try discriminate.
  destruct (index priKey 0); cbn [bind]; try discriminate.
  destruct (MarshalBinary G1 _); cbn [try bind]; [|discriminate].
  intro H. inversion H. reflexivity.
Qed.

(** C9 (index safety of the batch loops).  When the message vector has at
    most [|PrivateKey| - 1] entries, every [priKey[i+1]] read by [BatchSign]
    is in range, its loop returns and the whole call does not panic; the
    same holds of every [pubKey[i+1]] read by [PSBatchVerify] when the
    vector has at most [|PublicKey| - 1] entries.  Nothing in the code
    checks the bound: past it the loops end in an index panic, not in a
    returned error. *)
Theorem batch_index_safety (priKey : list Scalar) (pubKey : list (Point G2))
  (msgs : list bytes) :
  ((Z.of_nat (length msgs) <= Z.of_nat (length priKey) - 1)%Z ->
     (forall i, i < length msgs -> exists k, index priKey (i + 1) = Ret k)
     /\ (forall y, exists y', BatchSign_loop priKey 0 msgs y = Ret y')
     /\ (forall h, BatchSign priKey msgs h <> Panic))
  /\ ((Z.of_nat (length msgs) <= Z.of_nat (length pubKey) - 1)%Z ->
     (forall i, i < length msgs -> exists P, index pubKey (i + 1) = Ret P)
     /\ (forall Y, exists Y', PSBatchVerify_loop pubKey 0 msgs Y = Ret Y'))
  /\ (msgs <> [] -> length priKey <= length msgs ->
      forall y, BatchSign_loop priKey 0 msgs y = Panic)
  /\ (msgs <> [] -> length pubKey <= length msgs ->
      forall Y, PSBatchVerify_loop pubKey 0 msgs Y = Panic).
Proof.
  repeat split.
  - intros i Hi. apply index_in_range. lia.
  - intro y. eexists. apply BatchSign_loop_safe. left. lia.
  - intro h. unfold BatchSign.
    destruct (MarshalBinary G1 h); cbn [try bind]; [|discriminate].
    rewrite BatchSign_loop_safe by (left; lia). cbn [bind].
    destruct (index_in_range priKey 0) as [k0 Hk0]; [lia|].
    rewrite Hk0. cbn [bind].
    destruct (MarshalBinary G1 _); cbn [try bind]; discriminate.
  - intros i Hi. apply index_in_range. lia.
  - intro Y. eexists. apply PSBatchVerify_loop_safe. left. lia.
  - intros N H y. apply BatchSign_loop_panics; [lia|assumption].
  - intros N H Y. apply PSBatchVerify_loop_panics; [lia|assumption].
Qed.

(** C10 (Sign reads only the first two key slots).  Two private keys of
    length at least 2 that agree at indices 0 and 1 give the same signature
    on every message when the same point [h] is drawn. *)
Theorem Sign_ignores_later_slots (priKey priKey' : list Scalar)
  (msg : bytes) (h : Point G1) :
  2 <= length priKey -> 2 <= length priKey' ->
  nth_error priKey 0 = nth_error priKey' 0 ->
  nth_error priKey 1 = nth_error priKey' 1 ->
  Sign priKey msg h = Sign priKey' msg h.
Proof.
  intros _ _ H0 H1. unfold Sign, index. rewrite H0, H1. reflexivity.
Qed.

End Structure.

(** ** Properties that rest on the laws of the suite *)

Section Laws.
Context {suite : Suite} {laws : SuiteLaws suite}.

Lemma Equal_refl (u : GT) : Equal u u = true.
Proof. apply Equal_eq. reflexivity. Qed.

Lemma Equal_neq (u v : GT) : Equal u v = false <-> u <> v.
Proof.
  split.
  - intros H E. apply Equal_eq in E. congruence.
  - intro N. destruct (Equal u v) eqn:E; [|reflexivity].
    apply Equal_eq in E. contradiction.
Qed.

(** What [verdict] answers on a signature whose components are given. *)
Lemma verdict_decoded X S b1 b2 s1 s2 :
  index S 0 = Ret b1 -> index S 1 = Ret b2 ->
  UnmarshalBinary G1 b1 = Done s1 -> UnmarshalBinary G1 b2 = Done s2 ->
  verdict X S =
    if Equal (Pair s1 X) (Pair s2 (Base G2)) then Ret tt
    else Fail ErrInvalidSignature.
Proof.
  intros I1 I2 U1 U2. unfold verdict.
  rewrite I1. cbn [bind]. rewrite U1. cbn [try bind].
  rewrite I2. cbn [bind]. rewrite U2. cbn [try bind].
  destruct (Equal _ _); reflexivity.
Qed.

Lemma verdict_first_undecodable X S b1 msg :
  index S 0 = Ret b1 -> UnmarshalBinary G1 b1 = Failed msg ->
  verdict X S = Fail (ErrEncoding msg).
Proof.
  intros I1 U1. unfold verdict.
  rewrite I1. cbn [bind]. rewrite U1. reflexivity.
Qed.

Lemma verdict_second_undecodable X S b1 b2 s1 msg :
  index S 0 = Ret b1 -> index S 1 = Ret b2 ->
  UnmarshalBinary G1 b1 = Done s1 -> UnmarshalBinary G1 b2 = Failed msg ->
  verdict X S = Fail (ErrEncoding msg).
Proof.
  intros I1 I2 U1 U2. unfold verdict.
  rewrite I1. cbn [bind]. rewrite U1. cbn [try bind].
  rewrite I2. cbn [bind]. rewrite U2. reflexivity.
Qed.

Lemma verdict_decision X S b1 b2 :
  index S 0 = Ret b1 -> index S 1 = Ret b2 ->
  (forall s1 s2,
      UnmarshalBinary G1 b1 = Done s1 -> UnmarshalBinary G1 b2 = Done s2 ->
      (verdict X S = Ret tt <-> Pair s1 X = Pair s2 (Base G2))
      /\ (verdict X S = Fail ErrInvalidSignature
          <-> Pair s1 X <> Pair s2 (Base G2)))
  /\ (forall msg, UnmarshalBinary G1 b1 = Failed msg ->
        verdict X S = Fail (ErrEncoding msg))
  /\ (forall s1 msg,
        UnmarshalBinary G1 b1 = Done s1 -> UnmarshalBinary G1 b2 = Failed msg ->
        verdict X S = Fail (ErrEncoding msg)).
Proof.
  intros I1 I2. repeat split.
  - intro V. rewrite (verdict_decoded X S b1 b2 s1 s2) in V by assumption.
    destruct (Equal _ _) eqn:E; [apply Equal_eq; exact E|discriminate].
  - intro P. rewrite (verdict_decoded X S b1 b2 s1 s2) by assumption.
    apply Equal_eq in P. rewrite P. reflexivity.
  - intros V P. rewrite (verdict_decoded X S b1 b2 s1 s2) in V by assumption.
    apply Equal_eq in P. rewrite P in V. discriminate.
  - intro N. rewrite (verdict_decoded X S b1 b2 s1 s2) by assumption.
    apply Equal_neq in N. rewrite N. reflexivity.
  - intros msg U1. eapply verdict_first_undecodable; eassumption.
  - intros s1 msg U1 U2. eapply verdict_second_undecodable; eassumption.
Qed.

(** C5 (what the verifiers decide).  On a public key with the slots the
    call reads and a signature with components [b1], [b2]: when both
    decode, [Verify] and [PSBatchVerify] return no error exactly when
    [e(sigma1, X * prod Y_i^(m_i)) = e(sigma2, g2)] and the invalid-signature
    error exactly when the two pairings differ; when [b1] does not decode,
    or [b1] does and [b2] does not, the suite's decoding error is what
    comes back. *)
Theorem verification_decision (pubKey : list (Point G2)) (X0 : Point G2)
  (S : list bytes) (b1 b2 : bytes) :
  index pubKey 0 = Ret X0 -> index S 0 = Ret b1 -> index S 1 = Ret b2 ->
  (forall msg Y1, index pubKey 1 = Ret Y1 ->
     let X := Add G2 (Mul G2 (SetBytes msg) Y1) X0 in
     (forall s1 s2,
         UnmarshalBinary G1 b1 = Done s1 -> UnmarshalBinary G1 b2 = Done s2 ->
         (Verify pubKey msg S = Ret tt <-> Pair s1 X = Pair s2 (Base G2))
         /\ (Verify pubKey msg S = Fail ErrInvalidSignature
             <-> Pair s1 X <> Pair s2 (Base G2)))
     /\ (forall e, UnmarshalBinary G1 b1 = Failed e ->
           Verify pubKey msg S = Fail (ErrEncoding e))
     /\ (forall s1 e,
           UnmarshalBinary G1 b1 = Done s1 -> UnmarshalBinary G1 b2 = Failed e ->
           Verify pubKey msg S = Fail (ErrEncoding e)))
  /\ (forall msgs, length msgs < length pubKey ->
     let X := Add G2 (key_product (skipn 1 pubKey) msgs (NewPoint G2)) X0 in
     (forall s1 s2,
         UnmarshalBinary G1 b1 = Done s1 -> UnmarshalBinary G1 b2 = Done s2 ->
         (PSBatchVerify pubKey msgs S = Ret tt
          <-> Pair s1 X = Pair s2 (Base G2))
         /\ (PSBatchVerify pubKey msgs S = Fail ErrInvalidSignature
             <-> Pair s1 X <> Pair s2 (Base G2)))
     /\ (forall e, UnmarshalBinary G1 b1 = Failed e ->
           PSBatchVerify pubKey msgs S = Fail (ErrEncoding e))
     /\ (forall s1 e,
           UnmarshalBinary G1 b1 = Done s1 -> UnmarshalBinary G1 b2 = Failed e ->
           PSBatchVerify pubKey msgs S = Fail (ErrEncoding e))).
Proof.
  intros I0 I1 I2. split.
  - intros msg Y1 IY X. rewrite Verify_verdict, IY, I0. cbn [bind].
    apply verdict_decision; assumption.
  - intros msgs Hlen X. rewrite PSBatchVerify_verdict.
    rewrite PSBatchVerify_loop_safe by (left; lia).
    cbn [bind]. rewrite I0. cbn [bind].
    apply verdict_decision; assumption.
Qed.

(** C8 (the single verifier is the batch verifier on one message).  For
    every public key, message and signature, of any length and content,
    [Verify] on [msg] and [PSBatchVerify] on [[msg]] end the same way: the
    same success, the same error, or the same panic. *)
Theorem Verify_is_PSBatchVerify_singleton (pubKey : list (Point G2))
  (msg : bytes) (S : list bytes) :
  Verify pubKey msg S = PSBatchVerify pubKey [msg] S.
Proof.
  rewrite Verify_verdict, PSBatchVerify_verdict.
  cbn [PSBatchVerify_loop]. change (0 + 1) with 1.
  destruct (index pubKey 1) as [Y1| |]; cbn [bind]; try reflexivity.
  rewrite (Add_NewPoint_l G2_laws). reflexivity.
Qed.

(** *** Encodings *)

Lemma marshal_ok (G : Group Scalar) (GL : GroupLaws ScalarAdd ScalarMul G)
  (P : Point G) :
  exists b, MarshalBinary G P = Done b /\ UnmarshalBinary G b = Done P.
Proof.
  destruct (Marshal_total GL P) as [b Hb].
  exists b. split; [exact Hb|]. apply (Marshal_inv GL). exact Hb.
Qed.

Lemma decodes_to_indices S s1 s2 :
  decodes_to S s1 s2 ->
  exists b1 b2, index S 0 = Ret b1 /\ index S 1 = Ret b2
    /\ UnmarshalBinary G1 b1 = Done s1 /\ UnmarshalBinary G1 b2 = Done s2.
Proof.
  intros (b1 & b2 & -> & U1 & U2). exists b1, b2. repeat split; assumption.
Qed.

(** *** Key generation *)

Lemma matching_map sk pk : matching sk pk <-> pk = map public_of sk.
Proof.
  split.
  - induction 1 as [|k P sk pk HP _ IH]; [reflexivity|].
    cbn [map]. rewrite HP, IH. reflexivity.
  - intros ->. induction sk as [|k sk IH]; constructor; [reflexivity|exact IH].
Qed.

Lemma NewKeyPair_pri_spec randoms :
  exists PriKey,
    NewKeyPair_pri randoms = Ret PriKey
    /\ length PriKey = length randoms
    /\ decodeScalars PriKey = Ret (map Pick randoms).
Proof.
  induction randoms as [|r rest (PriKey & HP & HL & HD)].
  - exists []. repeat split.
  - destruct (ScalarMarshal_total (Pick r)) as [b Hb].
    exists (b :: PriKey). cbn [NewKeyPair_pri decodeScalars length map].
    rewrite Hb, HP. cbn [try bind].
    rewrite (ScalarMarshal_inv _ Hb), HD. cbn [try bind].
    repeat split. congruence.
Qed.

Lemma NewKeyPair_pub_spec PriKey : forall sk,
  decodeScalars PriKey = Ret sk ->
  exists PubKey,
    NewKeyPair_pub PriKey = Ret PubKey
    /\ length PubKey = length PriKey
    /\ decodePoints G2 PubKey = Ret (map public_of sk).
Proof.
  induction PriKey as [|b rest IH]; intros sk HD.
  - inversion HD; subst. exists []. repeat split.
  - cbn [decodeScalars] in HD.
    destruct (ScalarUnmarshal b) as [k|] eqn:Ek; cbn [try bind] in HD;
      [|discriminate].
    destruct (decodeScalars rest) as [ks| |] eqn:Eks; cbn [bind] in HD;
      try discriminate.
    inversion HD; subst sk.
    destruct (IH ks eq_refl) as (PubKey & HP & HL & HDp).
    destruct (marshal_ok G2 G2_laws (public_of k)) as (c & Hc & Hu).
    exists (c :: PubKey).
    cbn [NewKeyPair_pub decodePoints length map].
    rewrite Ek. cbn [try bind]. fold (public_of k).
    rewrite Hc, HP. cbn [try bind]. rewrite Hu, HDp. cbn [try bind].
    repeat split. congruence.
Qed.

Lemma NewKeyPair_few randoms :
  length randoms < 2 -> NewKeyPair randoms = Fail ErrNeedTwoRandoms.
Proof.
  intro H. unfold NewKeyPair.
  destruct (Nat.ltb_spec (length randoms) 2); [reflexivity|lia].
Qed.

Lemma NewKeyPair_enough randoms :
  2 <= length randoms ->
  exists PriKey PubKey,
    NewKeyPair randoms = Ret (PriKey, PubKey)
    /\ length PriKey = length randoms /\ length PubKey = length randoms
    /\ decodeScalars PriKey = Ret (map Pick randoms)
    /\ decodePoints G2 PubKey = Ret (map public_of (map Pick randoms)).
Proof.
  intro H.
  destruct (NewKeyPair_pri_spec randoms) as (PriKey & HP & HL & HD).
  destruct (NewKeyPair_pub_spec PriKey _ HD) as (PubKey & HQ & HLq & HDq).
  exists PriKey, PubKey. unfold NewKeyPair.
  destruct (Nat.ltb_spec (length randoms) 2); [lia|].
  rewrite HP. cbn [bind]. rewrite HQ. cbn [bind].
  repeat split; congruence.
Qed.

(** The keys a caller holds after a successful [NewKeyPair]. *)
Lemma NewKeyPair_keys randoms PriKey PubKey sk pk :
  NewKeyPair randoms = Ret (PriKey, PubKey) ->
  decodeScalars PriKey = Ret sk -> decodePoints G2 PubKey = Ret pk ->
  2 <= length randoms /\ length sk = length randoms /\ matching sk pk.
Proof.
  intros HN Hs Hp.
  assert (2 <= length randoms) as Hr.
  { destruct (Nat.lt_ge_cases (length randoms) 2) as [Hlt|]; [|assumption].
    rewrite (NewKeyPair_few _ Hlt) in HN. discriminate. }
  destruct (NewKeyPair_enough _ Hr) as (P' & Q' & HN' & _ & _ & Hs' & Hp').
  rewrite HN in HN'. inversion HN'; subst P' Q'.
  rewrite Hs in Hs'. rewrite Hp in Hp'.
  inversion Hs'; inversion Hp'; subst.
  repeat split; [assumption|apply length_map|].
  apply matching_map. reflexivity.
Qed.

(** C6 (the contract of key generation).  With fewer than two randomness
    sources [NewKeyPair] returns the need-two-randoms error and no keys.
    With [r >= 2] sources it returns [r] private entries, each the encoding
    of a scalar, and [r] public entries, each the encoding of a G2 point,
    with [PublicKey[i] = g2^PrivateKey[i]] at every index [i < r]. *)
Theorem NewKeyPair_contract (randoms : list Stream) :
  (length randoms < 2 -> NewKeyPair randoms = Fail ErrNeedTwoRandoms)
  /\ (2 <= length randoms ->
      exists PriKey PubKey sk pk,
        NewKeyPair randoms = Ret (PriKey, PubKey)
        /\ length PriKey = length randoms /\ length PubKey = length randoms
        /\ decodeScalars PriKey = Ret sk /\ decodePoints G2 PubKey = Ret pk
        /\ length sk = length randoms /\ length pk = length randoms
        /\ forall i, i < length randoms ->
             exists k, nth_error sk i = Some k
               /\ nth_error pk i = Some (Mul G2 k (Base G2))).
Proof.
  split; [apply NewKeyPair_few|].
  intro H.
  destruct (NewKeyPair_enough _ H) as (PriKey & PubKey & HN & HL & HLq & Hs & Hp).
  exists PriKey, PubKey, (map Pick randoms), (map public_of (map Pick randoms)).
  repeat split; try assumption.
  - apply length_map.
  - rewrite !length_map. reflexivity.
  - intros i Hi.
    destruct (nth_error (map Pick randoms) i) as [k|] eqn:E.
    + exists k. split; [reflexivity|].
      rewrite nth_error_map, E. reflexivity.
    + apply nth_error_None in E. rewrite length_map in E. lia.
Qed.

(** *** Exponents on the private side, points on the public side *)

Lemma ScalarAdd_NewScalar_r a : ScalarAdd a NewScalar = a.
Proof. rewrite ScalarAdd_comm. apply ScalarAdd_NewScalar_l. Qed.

Lemma public_of_product x y m :
  Add G2 (Mul G2 m (public_of y)) (public_of x)
    = public_of (ScalarAdd x (ScalarMul y m)).
Proof.
  unfold public_of.
  rewrite (Mul_smul G2_laws), <- (Mul_sadd G2_laws).
  rewrite ScalarAdd_comm, (ScalarMul_comm m y). reflexivity.
Qed.

Lemma key_sum_shift msgs : forall ys z a,
  ScalarAdd z (key_sum ys msgs a) = key_sum ys msgs (ScalarAdd z a).
Proof.
  induction msgs as [|msg rest IH]; intros ys z a; [reflexivity|].
  destruct ys as [|y ys]; [reflexivity|].
  cbn [key_sum]. rewrite IH, ScalarAdd_assoc. reflexivity.
Qed.

Lemma key_product_shift msgs : forall Ys A Z,
  Add G2 (key_product Ys msgs A) Z = key_product Ys msgs (Add G2 Z A).
Proof.
  induction msgs as [|msg rest IH]; intros Ys A Z.
  - apply (Add_comm G2_laws).
  - destruct Ys as [|Y Ys]; [apply (Add_comm G2_laws)|].
    cbn [key_product]. rewrite IH, (Add_assoc G2_laws). reflexivity.
Qed.

Lemma key_product_public msgs : forall ys a,
  key_product (map public_of ys) msgs (public_of a)
    = public_of (key_sum ys msgs a).
Proof.
  induction msgs as [|msg rest IH]; intros ys a; [reflexivity|].
  destruct ys as [|y ys]; [reflexivity|].
  cbn [map key_product key_sum].
  rewrite (Add_comm G2_laws), public_of_product. apply IH.
Qed.

Lemma matching_index sk pk i k :
  matching sk pk -> index sk i = Ret k -> index pk i = Ret (public_of k).
Proof.
  intros M H. apply matching_map in M. subst pk.
  apply index_nth_error in H. apply index_nth_error.
  rewrite nth_error_map, H. reflexivity.
Qed.

Lemma matching_length sk pk : matching sk pk -> length pk = length sk.
Proof. intro M. apply matching_map in M. subst pk. apply length_map. Qed.

(** *** The verifiers on matching keys *)

Lemma verdict_accepts X S s1 s2 E :
  decodes_to S s1 s2 -> s2 = Mul G1 E s1 -> X = public_of E ->
  verdict X S = Ret tt.
Proof.
  intros D -> ->.
  destruct (decodes_to_indices _ _ _ D) as (b1 & b2 & I1 & I2 & U1 & U2).
  rewrite (verdict_decoded _ _ _ _ _ _ I1 I2 U1 U2).
  unfold public_of. rewrite Pair_Mul, Equal_refl. reflexivity.
Qed.

Lemma Verify_matching sk pk x y msg S :
  matching sk pk -> index sk 0 = Ret x -> index sk 1 = Ret y ->
  Verify pk msg S
    = verdict (public_of (ScalarAdd x (ScalarMul y (SetBytes msg)))) S.
Proof.
  intros M I0 I1. rewrite Verify_verdict.
  rewrite (matching_index _ _ _ _ M I1), (matching_index _ _ _ _ M I0).
  cbn [bind]. rewrite public_of_product. reflexivity.
Qed.

Lemma PSBatchVerify_matching sk pk x msgs S :
  matching sk pk -> index sk 0 = Ret x -> length msgs < length sk ->
  PSBatchVerify pk msgs S = verdict (public_of (key_sum (skipn 1 sk) msgs x)) S.
Proof.
  intros M I0 L. rewrite PSBatchVerify_verdict.
  rewrite PSBatchVerify_loop_safe
    by (left; rewrite (matching_length _ _ M); lia).
  cbn [bind]. rewrite (matching_index _ _ _ _ M I0). cbn [bind].
  rewrite key_product_shift, (Add_comm G2_laws), (Add_NewPoint_l G2_laws).
  apply matching_map in M. subst pk.
  change (0 + 1) with 1. rewrite skipn_map, key_product_public. reflexivity.
Qed.

(** *** The signers *)

Lemma Sign_decodes sk x y msg h :
  index sk 0 = Ret x -> index sk 1 = Ret y ->
  exists S, Sign sk msg h = Ret S
    /\ decodes_to S h (Mul G1 (ScalarAdd x (ScalarMul y (SetBytes msg))) h).
Proof.
  intros I0 I1. unfold Sign.
  destruct (marshal_ok G1 G1_laws h) as (b1 & M1 & U1).
  rewrite M1, I1, I0. cbn [try bind].
  destruct (marshal_ok G1 G1_laws
              (Mul G1 (ScalarAdd x (ScalarMul y (SetBytes msg))) h))
    as (b2 & M2 & U2).
  rewrite M2. cbn [try bind].
  eexists. split; [reflexivity|]. exists b1, b2. repeat split; assumption.
Qed.

Lemma BatchSign_decodes sk x msgs h :
  index sk 0 = Ret x -> length msgs < length sk ->
  exists S, BatchSign sk msgs h = Ret S
    /\ decodes_to S h (Mul G1 (key_sum (skipn 1 sk) msgs x) h).
Proof.
  intros I0 L. unfold BatchSign.
  destruct (marshal_ok G1 G1_laws h) as (b1 & M1 & U1).
  rewrite M1. cbn [try bind].
  rewrite BatchSign_loop_safe by (left; lia). cbn [bind].
  rewrite I0. cbn [bind]. change (0 + 1) with 1.
  rewrite key_sum_shift, ScalarAdd_NewScalar_r.
  destruct (marshal_ok G1 G1_laws (Mul G1 (key_sum (skipn 1 sk) msgs x) h))
    as (b2 & M2 & U2).
  rewrite M2. cbn [try bind].
  eexists. split; [reflexivity|]. exists b1, b2. repeat split; assumption.
Qed.

Lemma AggreSign_decodes sk x y msg t :
  index sk 0 = Ret x -> index sk 1 = Ret y ->
  exists S, AggreSign sk msg t = Ret S
    /\ decodes_to S (Mul G1 t (Base G1))
         (Mul G1 (ScalarMul (ScalarAdd x (ScalarMul y (SetBytes msg))) t)
            (Base G1)).
Proof.
  intros I0 I1. unfold AggreSign.
  destruct (marshal_ok G1 G1_laws (Mul G1 t (Base G1))) as (b1 & M1 & U1).
  rewrite M1, I1, I0. cbn [try bind].
  destruct (marshal_ok G1 G1_laws
              (Mul G1 (ScalarMul (ScalarAdd x (ScalarMul y (SetBytes msg))) t)
                 (Base G1))) as (b2 & M2 & U2).
  rewrite M2. cbn [try bind].
  eexists. split; [reflexivity|]. exists b1, b2. repeat split; assumption.
Qed.

Lemma AggregatePSSign_decodes y S msg t s1 s2 :
  decodes_to S s1 s2 ->
  exists S', AggregatePSSign y S msg t = Ret S'
    /\ decodes_to S' (Mul G1 t s1)
         (Mul G1 t (Add G1 (Mul G1 (ScalarMul y (SetBytes msg)) s1) s2)).
Proof.
  intros (c1 & c2 & -> & V1 & V2). unfold AggregatePSSign.
  cbn [index nth_error bind]. rewrite V1. cbn [try bind].
  destruct (marshal_ok G1 G1_laws (Mul G1 t s1)) as (b1 & M1 & U1).
  rewrite M1, V2. cbn [try bind].
  destruct (marshal_ok G1 G1_laws
              (Mul G1 t (Add G1 (Mul G1 (ScalarMul y (SetBytes msg)) s1) s2)))
    as (b2 & M2 & U2).
  rewrite M2. cbn [try bind].
  eexists. split; [reflexivity|]. exists b1, b2. repeat split; assumption.
Qed.

(** One link adds [e] to the exponent, whatever [t] is drawn. *)
Lemma link_exponent E e t s1 :
  Mul G1 t (Add G1 (Mul G1 e s1) (Mul G1 E s1))
    = Mul G1 (ScalarAdd E e) (Mul G1 t s1).
Proof.
  rewrite <- (Mul_sadd G1_laws), !(Mul_smul G1_laws).
  rewrite (ScalarAdd_comm e E), (ScalarMul_comm t). reflexivity.
Qed.

Lemma extend_invariant links : forall S s1 s2 E,
  decodes_to S s1 s2 -> s2 = Mul G1 E s1 ->
  exists S' s1' s2',
    extend S links = Ret S' /\ decodes_to S' s1' s2'
    /\ s2' = Mul G1 (chain_exponent E links) s1'.
Proof.
  induction links as [|[[y msg] t] rest IH]; intros S s1 s2 E D HE.
  - exists S, s1, s2. repeat split; assumption.
  - destruct (AggregatePSSign_decodes y S msg t s1 s2 D) as (S1 & HS1 & D1).
    cbn [extend chain_exponent]. rewrite HS1. cbn [bind].
    apply (IH S1 _ _ _ D1). subst s2. apply link_exponent.
Qed.

(** *** Round trips *)

Lemma two_slots (sk : list Scalar) :
  2 <= length sk -> exists x y, index sk 0 = Ret x /\ index sk 1 = Ret y.
Proof.
  intro H. destruct sk as [|x [|y rest]]; cbn [length] in H; try lia.
  exists x, y. split; reflexivity.
Qed.

(** C1 (a signature verifies).  For the keys a caller holds after
    [NewKeyPair] on [r >= 2] randomness sources, every message and every
    point [h] that [Sign] may draw: [Sign] returns a signature and [Verify]
    returns no error on it. *)
Theorem Sign_Verify_roundtrip (randoms : list Stream)
  (PriKey PubKey : list bytes) (sk : list Scalar) (pk : list (Point G2))
  (msg : bytes) (h : Point G1) :
  2 <= length randoms ->
  NewKeyPair randoms = Ret (PriKey, PubKey) ->
  decodeScalars PriKey = Ret sk -> decodePoints G2 PubKey = Ret pk ->
  exists S, Sign sk msg h = Ret S /\ Verify pk msg S = Ret tt.
Proof.
  intros _ HN Hs Hp.
  destruct (NewKeyPair_keys _ _ _ _ _ HN Hs Hp) as (Hr & HL & M).
  destruct (two_slots sk) as (x & y & I0 & I1); [lia|].
  destruct (Sign_decodes sk x y msg h I0 I1) as (S & HS & D).
  exists S. split; [exact HS|].
  rewrite (Verify_matching sk pk x y msg S M I0 I1).
  eapply verdict_accepts; [exact D|reflexivity|reflexivity].
Qed.

(** C2 (a batch signature verifies).  For the keys a caller holds after
    [NewKeyPair] on [r] sources, every message vector of length at most
    [r - 1] and every point [h] that [BatchSign] may draw: [BatchSign]
    returns a signature and [PSBatchVerify] returns no error on it. *)
Theorem BatchSign_PSBatchVerify_roundtrip (randoms : list Stream)
  (PriKey PubKey : list bytes) (sk : list Scalar) (pk : list (Point G2))
  (msgs : list bytes) (h : Point G1) :
  NewKeyPair randoms = Ret (PriKey, PubKey) ->
  decodeScalars PriKey = Ret sk -> decodePoints G2 PubKey = Ret pk ->
  length msgs <= length randoms - 1 ->
  exists S, BatchSign sk msgs h = Ret S /\ PSBatchVerify pk msgs S = Ret tt.
Proof.
  intros HN Hs Hp L.
  destruct (NewKeyPair_keys _ _ _ _ _ HN Hs Hp) as (Hr & HL & M).
  destruct (two_slots sk) as (x & y & I0 & _); [lia|].
  destruct (BatchSign_decodes sk x msgs h I0) as (S & HS & D); [lia|].
  exists S. split; [exact HS|].
  rewrite (PSBatchVerify_matching sk pk x msgs S M I0) by lia.
  eapply verdict_accepts; [exact D|reflexivity|reflexivity].
Qed.

(** C3 (an aggregated signature verifies).  For the keys a caller holds
    after [NewKeyPair] on at least 4 sources and messages [m1], [m2], [m3]:
    [AggreSign] with the private key on [m1], extended by
    [AggregatePSSign] with the scalar of slot 2 on [m2] and then with the
    scalar of slot 3 on [m3], returns at every step, and [PSBatchVerify]
    with the whole public key and [[m1; m2; m3]] returns no error on the
    result, whatever scalars [t1], [t2], [t3] the three steps draw. *)
Theorem aggregation_end_to_end (randoms : list Stream)
  (PriKey PubKey : list bytes) (sk : list Scalar) (pk : list (Point G2))
  (y2 y3 : Scalar) (m1 m2 m3 : bytes) (t1 t2 t3 : Scalar) :
  4 <= length randoms ->
  NewKeyPair randoms = Ret (PriKey, PubKey) ->
  decodeScalars PriKey = Ret sk -> decodePoints G2 PubKey = Ret pk ->
  index sk 2 = Ret y2 -> index sk 3 = Ret y3 ->
  exists AS AS1 AS2,
    AggreSign sk m1 t1 = Ret AS
    /\ AggregatePSSign y2 AS m2 t2 = Ret AS1
    /\ AggregatePSSign y3 AS1 m3 t3 = Ret AS2
    /\ PSBatchVerify pk [m1; m2; m3] AS2 = Ret tt.
Proof.
  intros H4 HN Hs Hp I2 I3.
  destruct (NewKeyPair_keys _ _ _ _ _ HN Hs Hp) as (Hr & HL & M).
  destruct sk as [|x [|y1 [|y2' [|y3' rest]]]]; cbn [length] in HL; try lia.
  cbn in I2, I3. inversion I2; inversion I3; subst y2' y3'.
  destruct (AggreSign_decodes (x :: y1 :: y2 :: y3 :: rest) x y1 m1 t1
              eq_refl eq_refl) as (AS & HAS & D0).
  destruct (AggregatePSSign_decodes y2 AS m2 t2 _ _ D0) as (AS1 & HAS1 & D1).
  destruct (AggregatePSSign_decodes y3 AS1 m3 t3 _ _ D1) as (AS2 & HAS2 & D2).
  exists AS, AS1, AS2. repeat split; try assumption.
  rewrite (PSBatchVerify_matching _ pk x [m1; m2; m3] AS2 M eq_refl)
    by (cbn [length]; lia).
  eapply verdict_accepts; [exact D2| |reflexivity].
  cbn [skipn key_sum].
  rewrite <- (Mul_smul G1_laws _ t1 (Base G1)).
  rewrite !link_exponent. reflexivity.
Qed.

(** C4 (the invariant of an aggregation chain).  [AggreSign] returns a pair
    with [sigma2 = sigma1^(x + y1*m1)].  One [AggregatePSSign] with scalar
    [y], message [m] and drawn [t] takes a pair with [sigma2 = sigma1^E] to
    the pair [(sigma1^t, (sigma1^(y*m) * sigma2)^t)], which satisfies
    [sigma2' = sigma1'^(E + y*m)].  Hence after any number of links the
    exponent is [x + y1*m1] plus the sum of [y_i * m_i] over the links. *)
Theorem aggregation_chain_invariant :
  (forall sk x y1 m1 t,
      index sk 0 = Ret x -> index sk 1 = Ret y1 ->
      exists AS s1 s2,
        AggreSign sk m1 t = Ret AS /\ decodes_to AS s1 s2
        /\ s2 = Mul G1 (ScalarAdd x (ScalarMul y1 (SetBytes m1))) s1)
  /\ (forall y m t S s1 s2 E,
      decodes_to S s1 s2 -> s2 = Mul G1 E s1 ->
      exists S',
        AggregatePSSign y S m t = Ret S'
        /\ decodes_to S' (Mul G1 t s1)
             (Mul G1 t (Add G1 (Mul G1 (ScalarMul y (SetBytes m)) s1) s2))
        /\ Mul G1 t (Add G1 (Mul G1 (ScalarMul y (SetBytes m)) s1) s2)
           = Mul G1 (ScalarAdd E (ScalarMul y (SetBytes m))) (Mul G1 t s1))
  /\ (forall sk x y1 m1 t links,
      index sk 0 = Ret x -> index sk 1 = Ret y1 ->
      exists S s1 s2,
        aggregate sk m1 t links = Ret S /\ decodes_to S s1 s2
        /\ s2 = Mul G1
                  (chain_exponent
                     (ScalarAdd x (ScalarMul y1 (SetBytes m1))) links) s1).
Proof.
  split; [|split].
  - intros sk x y1 m1 t I0 I1.
    destruct (AggreSign_decodes sk x y1 m1 t I0 I1) as (AS & HAS & D).
    exists AS. do 2 eexists. split; [exact HAS|split; [exact D|]].
    symmetry. apply (Mul_smul G1_laws).
  - intros y m t S s1 s2 E D HE.
    destruct (AggregatePSSign_decodes y S m t s1 s2 D) as (S' & HS' & D').
    exists S'. split; [exact HS'|split; [exact D'|]].
    subst s2. apply link_exponent.
  - intros sk x y1 m1 t links I0 I1.
    destruct (AggreSign_decodes sk x y1 m1 t I0 I1) as (AS & HAS & D).
    unfold aggregate. rewrite HAS. cbn [bind].
    apply (extend_invariant links AS _ _ _ D).
    symmetry. apply (Mul_smul G1_laws).
Qed.

End Laws.

(** ** Tampering with a signature *)

Lemma bit_mask_cases (k : nat) :
  In (bit_mask k) [x01; x02; x04; x08; x10; x20; x40; x80].
Proof.
  unfold bit_mask.
  assert (k mod 8 < 8) as H by (apply Nat.mod_upper_bound; discriminate).
  destruct (k mod 8) as [|[|[|[|[|[|[|[|n]]]]]]]]; cbn; try tauto; lia.
Qed.

Lemma xor_byte_changes (b mask : byte) :
  In mask [x01; x02; x04; x08; x10; x20; x40; x80] -> xor_byte b mask <> b.
Proof.
  intro H. cbn [In] in H.
  repeat (destruct H as [<-|H]; [destruct b; vm_compute; discriminate|]).
  contradiction.
Qed.

Lemma xor_at_changes (mask : byte) :
  In mask [x01; x02; x04; x08; x10; x20; x40; x80] ->
  forall bs i bs', xor_at bs i mask = Ret bs' -> bs' <> bs.
Proof.
  intro HM. induction bs as [|b rest IH]; intros i bs' H; [discriminate|].
  destruct i as [|j]; cbn [xor_at] in H.
  - inversion H; subst bs'. intro E. inversion E as [E'].
    exact (xor_byte_changes b mask HM E').
  - destruct (xor_at rest j mask) as [rest'| |] eqn:R; cbn [bind] in H;
      try discriminate.
    inversion H; subst bs'. intro E. inversion E as [E'].
    exact (IH j rest' R E').
Qed.

(** A flipped bit is a changed byte string. *)
Lemma flip_bit_changes (bs bs' : bytes) (pos : nat) :
  flip_bit bs pos = Ret bs' -> bs' <> bs.
Proof. apply xor_at_changes, bit_mask_cases. Qed.

Section Tamper.
Context {suite : Suite} {laws : SuiteLaws suite} {nd : NonDegenerate suite}
  {fs : FlipSensitive suite}.

(** The second component of a signature is the encoding of [h^(x + y*m)]. *)
Lemma Sign_second_component sk x y msg h b1 b2 :
  index sk 0 = Ret x -> index sk 1 = Ret y ->
  Sign sk msg h = Ret [b1; b2] ->
  MarshalBinary G1 (Mul G1 (ScalarAdd x (ScalarMul y (SetBytes msg))) h)
    = Done b2.
Proof.
  intros I0 I1. unfold Sign.
  destruct (MarshalBinary G1 h); cbn [try bind]; [|discriminate].
  rewrite I1, I0. cbn [bind].
  destruct (MarshalBinary G1 _) as [c|] eqn:M2; cbn [try bind];
    [|discriminate].
  intro H. inversion H. reflexivity.
Qed.

(** A first component that decodes, if at all, to a point other than [h]
    next to the genuine second component. *)
Lemma verdict_first_tampered E h b2 b' :
  UnmarshalBinary G1 b2 = Done (Mul G1 E h) ->
  (forall P', UnmarshalBinary G1 b' = Done P' -> P' <> h) ->
  public_of E <> NewPoint G2 ->
  verdict (public_of E) [b'; b2] = Fail (tamper_error b').
Proof.
  intros U2 N NZ. unfold tamper_error.
  destruct (UnmarshalBinary G1 b') as [P|e] eqn:U'.
  - rewrite (verdict_decoded _ [b'; b2] b' b2 P _ eq_refl eq_refl U' U2).
    destruct (Equal _ _) eqn:Q; [|reflexivity].
    apply Equal_eq in Q. unfold public_of in Q. rewrite (Pair_Mul E h) in Q.
    destruct (Pair_cancel _ _ _ Q) as [C|C].
    + exfalso. exact (N P eq_refl C).
    + contradiction.
  - apply (verdict_first_undecodable _ [b'; b2] b' e eq_refl U').
Qed.

(** The genuine first component next to a second one that decodes, if at
    all, to a point other than [h^E]. *)
Lemma verdict_second_tampered E h b1 b' :
  UnmarshalBinary G1 b1 = Done h ->
  (forall P', UnmarshalBinary G1 b' = Done P' -> P' <> Mul G1 E h) ->
  verdict (public_of E) [b1; b'] = Fail (tamper_error b').
Proof.
  intros U1 N. unfold tamper_error.
  destruct (UnmarshalBinary G1 b') as [P|e] eqn:U'.
  - rewrite (verdict_decoded _ [b1; b'] b1 b' h P eq_refl eq_refl U1 U').
    destruct (Equal _ _) eqn:Q; [|reflexivity].
    apply Equal_eq in Q. unfold public_of in Q. rewrite <- (Pair_Mul E h) in Q.
    destruct (Pair_cancel _ _ _ Q) as [C|C].
    + exfalso. symmetry in C. exact (N P eq_refl C).
    + exfalso. exact (Base_not_null C).
  - apply (verdict_second_undecodable _ [b1; b'] b1 b' h e eq_refl eq_refl U1 U').
Qed.

(** C7, as the code has it (tampering is detected, by one of two errors).
    On a suite whose pairing does not collapse and where a flipped bit never
    leaves the encoding of a point an encoding of that same point: take keys
    from [NewKeyPair], a message and the signature [[b1; b2]] that [Sign]
    returns, and flip one bit of a component.  [Verify] then fails.  The
    error is the suite's decoding error when the flipped component no
    longer decodes and the invalid-signature error when it still does; for
    a flip in the first component this needs the public element [X * Y^m]
    not to be the identity of G2, which a random key misses only by
    chance. *)
Theorem tampering_detected (randoms : list Stream)
  (PriKey PubKey : list bytes) (sk : list Scalar) (pk : list (Point G2))
  (x y : Scalar) (msg : bytes) (h : Point G1) (b1 b2 b' : bytes) (pos : nat) :
  NewKeyPair randoms = Ret (PriKey, PubKey) ->
  decodeScalars PriKey = Ret sk -> decodePoints G2 PubKey = Ret pk ->
  index sk 0 = Ret x -> index sk 1 = Ret y ->
  Sign sk msg h = Ret [b1; b2] ->
  (flip_bit b1 pos = Ret b' ->
     public_of (ScalarAdd x (ScalarMul y (SetBytes msg))) <> NewPoint G2 ->
     Verify pk msg [b'; b2] = Fail (tamper_error b'))
  /\ (flip_bit b2 pos = Ret b' ->
     Verify pk msg [b1; b'] = Fail (tamper_error b')).
Proof.
  intros HN Hs Hp I0 I1 HS.
  destruct (NewKeyPair_keys _ _ _ _ _ HN Hs Hp) as (_ & _ & M).
  pose proof (Sign_first_component sk msg h b1 b2 HS) as M1.
  pose proof (Sign_second_component sk x y msg h b1 b2 I0 I1 HS) as M2.
  pose proof (Marshal_inv G1_laws _ M1) as U1.
  pose proof (Marshal_inv G1_laws _ M2) as U2.
  split.
  - intros F NZ.
    rewrite (Verify_matching sk pk x y msg _ M I0 I1).
    apply (verdict_first_tampered _ h b2 b' U2); [|exact NZ].
    intros P' U'. exact (flip_moves_point pos M1 F U').
  - intros F.
    rewrite (Verify_matching sk pk x y msg _ M I0 I1).
    apply (verdict_second_tampered _ h b1 b' U1).
    intros P' U'. exact (flip_moves_point pos M2 F U').
Qed.

End Tamper.

(** ** The small suite meets the laws *)

Lemma toy_elements (a : Toy.F) : In a (Zmod.elements Toy.p).
Proof. apply Zmod.in_elements. discriminate. Qed.

Ltac toy_enum a :=
  let H := fresh "H" in
  pose proof (toy_elements a) as H; vm_compute in H;
  repeat (destruct H as [<-|H]; [|]); [..|contradiction].

Lemma toy_enc_total (a : Toy.F) : exists b, Toy.enc a = Done b.
Proof. toy_enum a; eexists; vm_compute; reflexivity. Qed.

Lemma toy_enc_dec (a : Toy.F) (b : bytes) :
  Toy.enc a = Done b -> Toy.dec b = Done a.
Proof.
  toy_enum a; intro H; vm_compute in H; inversion H; reflexivity.
Qed.

Lemma toy_dec_enc (b : bytes) (a : Toy.F) :
  Toy.dec b = Done a -> Toy.enc a = Done b.
Proof.
  destruct b as [|c [|d rest]]; try discriminate.
  destruct c; intro H; vm_compute in H; try discriminate;
    inversion H; reflexivity.
Qed.

Lemma toy_inverse (q : Toy.F) :
  q = Zmod.zero \/ exists q', Zmod.mul q q' = Zmod.one.
Proof.
  toy_enum q; try (left; reflexivity);
    match goal with
    | |- _ \/ exists q', Zmod.mul ?c q' = _ =>
        right; exists (Zmod.inv c); vm_compute; reflexivity
    end.
Qed.

Lemma toy_mul_add_r (a b c : Toy.F) :
  Zmod.mul a (Zmod.add b c) = Zmod.add (Zmod.mul a b) (Zmod.mul a c).
Proof.
  rewrite (Zmod.mul_comm a), Zmod.mul_add_l.
  rewrite (Zmod.mul_comm b), (Zmod.mul_comm c). reflexivity.
Qed.

Lemma toy_group_laws : GroupLaws Zmod.add Zmod.mul Toy.group.
Proof.
  constructor; cbn.
  - apply Zmod.add_comm.
  - apply Zmod.add_assoc.
  - apply Zmod.add_0_l.
  - intros. apply Zmod.mul_add_l.
  - intros. apply Zmod.mul_assoc.
  - apply toy_mul_add_r.
  - apply toy_enc_total.
  - apply toy_enc_dec.
Qed.

Lemma toy_laws : SuiteLaws Toy.suite.
Proof.
  constructor; cbn.
  - apply Zmod.add_comm.
  - apply Zmod.add_assoc.
  - apply Zmod.add_0_l.
  - apply Zmod.mul_comm.
  - apply Zmod.mul_assoc.
  - apply Zmod.mul_add_l.
  - apply toy_enc_total.
  - apply toy_enc_dec.
  - apply toy_group_laws.
  - apply toy_group_laws.
  - intros a P Q.
    rewrite (Zmod.mul_comm a P), <- Zmod.mul_assoc. reflexivity.
  - apply Zmod.eqb_eq.
Qed.

Lemma toy_nondegenerate : NonDegenerate Toy.suite.
Proof.
  constructor; cbn.
  - intros P P' Q H.
    destruct (toy_inverse Q) as [Z|[Q' HQ]]; [right; exact Z|left].
    rewrite <- (Zmod.mul_1_l P), <- (Zmod.mul_1_l P'), <- HQ.
    rewrite !(Zmod.mul_comm (Zmod.mul Q Q')), !Zmod.mul_assoc, H.
    reflexivity.
  - apply Zmod.one_neq_zero. vm_compute. discriminate.
Qed.

Lemma toy_flip_sensitive : FlipSensitive Toy.suite.
Proof.
  constructor; cbn. intros P b pos b' P' M F U E. subst P'.
  apply toy_dec_enc in U. rewrite M in U. inversion U as [B].
  exact (flip_bit_changes _ _ _ F (eq_sym B)).
Qed.

(** On the small suite the bytes from 13 on decode to nothing, so a flip of
    any of the bits 4 to 7 of sigma_1 ends in the decoding error, for every
    key, message and drawn point. *)
Lemma toy_high_bit_undecodable (a : Toy.F) (b b' : bytes) (pos : nat) :
  Toy.enc a = Done b -> 4 <= pos < 8 -> flip_bit b pos = Ret b' ->
  Toy.dec b' = Failed "malformed element".
Proof.
  intros E R F.
  assert (pos = 4 \/ pos = 5 \/ pos = 6 \/ pos = 7) as C by lia.
  toy_enum a; vm_compute in E; inversion E; subst b;
    destruct C as [->|[->|[->| ->]]]; vm_compute in F; inversion F;
    reflexivity.
Qed.

Lemma toy_high_bit_flip (sk pk : list Toy.F) (X0 Y1 : Toy.F) (msg : bytes)
  (h : Toy.F) (b1 b2 b' : bytes) (pos : nat) :
  index pk 0 = Ret X0 -> index pk 1 = Ret Y1 ->
  @Sign Toy.suite sk msg h = Ret [b1; b2] ->
  4 <= pos < 8 -> flip_bit b1 pos = Ret b' ->
  @Verify Toy.suite pk msg [b'; b2] = Fail (ErrEncoding "malformed element").
Proof.
  intros I0 I1 HS R F.
  pose proof (@Sign_first_component Toy.suite sk msg h b1 b2 HS) as E.
  rewrite (@Verify_verdict Toy.suite).
  change (index pk 1) with (@index Toy.F pk 1). rewrite I1. cbn [bind].
  change (index pk 0) with (@index Toy.F pk 0). rewrite I0. cbn [bind].
  apply (@verdict_first_undecodable Toy.suite _ [b'; b2] b' _ eq_refl).
  exact (toy_high_bit_undecodable h b1 b' pos E R F).
Qed.

(** ** The statements at work on the small suite *)

Lemma toy_NewKeyPair :
  @NewKeyPair Toy.suite Toy.randoms = Ret (Toy.PriKey, Toy.PubKey).
Proof. vm_compute. reflexivity. Defined.

Lemma toy_decodeScalars : @decodeScalars Toy.suite Toy.PriKey = Ret Toy.sk.
Proof. vm_compute. reflexivity. Defined.

Lemma toy_decodePoints : @decodePoints Toy.suite G2 Toy.PubKey = Ret Toy.pk.
Proof. vm_compute. reflexivity. Defined.

Lemma Sign_Verify_roundtrip_witness :
  exists S, @Sign Toy.suite Toy.sk Toy.hello (Toy.el 3) = Ret S
    /\ @Verify Toy.suite Toy.pk Toy.hello S = Ret tt.
Proof.
  apply (@Sign_Verify_roundtrip Toy.suite toy_laws Toy.randoms
           Toy.PriKey Toy.PubKey).
  - simpl. lia.
  - exact toy_NewKeyPair.
  - exact toy_decodeScalars.
  - exact toy_decodePoints.
Defined.

Lemma BatchSign_PSBatchVerify_roundtrip_witness :
  exists S,
    @BatchSign Toy.suite Toy.sk [Toy.hello; Toy.m2; Toy.m3] (Toy.el 3) = Ret S
    /\ @PSBatchVerify Toy.suite Toy.pk [Toy.hello; Toy.m2; Toy.m3] S = Ret tt.
Proof.
  apply (@BatchSign_PSBatchVerify_roundtrip Toy.suite toy_laws Toy.randoms
           Toy.PriKey Toy.PubKey).
  - exact toy_NewKeyPair.
  - exact toy_decodeScalars.
  - exact toy_decodePoints.
  - simpl. lia.
Defined.

Lemma aggregation_end_to_end_witness :
  exists AS AS1 AS2,
    @AggreSign Toy.suite Toy.sk Toy.hello (Toy.el 5) = Ret AS
    /\ @AggregatePSSign Toy.suite (Toy.el 9) AS Toy.m2 (Toy.el 7) = Ret AS1
    /\ @AggregatePSSign Toy.suite (Toy.el 11) AS1 Toy.m3 (Toy.el 6) = Ret AS2
    /\ @PSBatchVerify Toy.suite Toy.pk [Toy.hello; Toy.m2; Toy.m3] AS2 = Ret tt.
Proof.
  apply (@aggregation_end_to_end Toy.suite toy_laws Toy.randoms
           Toy.PriKey Toy.PubKey).
  - simpl. lia.
  - exact toy_NewKeyPair.
  - exact toy_decodeScalars.
  - exact toy_decodePoints.
  - reflexivity.
  - reflexivity.
Defined.

Lemma aggregation_chain_invariant_witness :
  exists S s1 s2,
    @aggregate Toy.suite Toy.sk Toy.hello (Toy.el 5)
      [(Toy.el 9, Toy.m2, Toy.el 7); (Toy.el 11, Toy.m3, Toy.el 6)] = Ret S
    /\ @decodes_to Toy.suite S s1 s2
    /\ s2 = Mul (@G1 Toy.suite)
              (@chain_exponent Toy.suite
                 (Zmod.add (Toy.el 4) (Zmod.mul (Toy.el 7) (Toy.of_bytes Toy.hello)))
                 [(Toy.el 9, Toy.m2, Toy.el 7); (Toy.el 11, Toy.m3, Toy.el 6)])
              s1.
Proof.
  apply (proj2 (proj2 (@aggregation_chain_invariant Toy.suite toy_laws))
           Toy.sk (Toy.el 4) (Toy.el 7)); reflexivity.
Defined.

Lemma verification_decision_witness :
  @Verify Toy.suite Toy.pk Toy.hello [[x03]; [x09]] = Ret tt
  <-> @Pair Toy.suite (Toy.el 3)
        (Zmod.add (Zmod.mul (Toy.of_bytes Toy.hello) (Toy.el 7)) (Toy.el 4))
      = @Pair Toy.suite (Toy.el 9) Zmod.one.
Proof.
  destruct (@verification_decision Toy.suite toy_laws Toy.pk (Toy.el 4)
              [[x03]; [x09]] [x03] [x09] eq_refl eq_refl eq_refl) as [HV _].
  destruct (HV Toy.hello (Toy.el 7) eq_refl) as [HD _].
  apply (HD (Toy.el 3) (Toy.el 9)); vm_compute; reflexivity.
Defined.

Lemma NewKeyPair_contract_witness :
  2 <= length Toy.randoms
  /\ exists PriKey PubKey sk pk,
      @NewKeyPair Toy.suite Toy.randoms = Ret (PriKey, PubKey)
      /\ length PriKey = length Toy.randoms
      /\ length PubKey = length Toy.randoms
      /\ @decodeScalars Toy.suite PriKey = Ret sk
      /\ @decodePoints Toy.suite G2 PubKey = Ret pk
      /\ length sk = length Toy.randoms /\ length pk = length Toy.randoms
      /\ forall i, i < length Toy.randoms ->
           exists k, nth_error sk i = Some k
             /\ nth_error pk i = Some (Mul (@G2 Toy.suite) k (Base G2)).
Proof.
  assert (2 <= length Toy.randoms) as H by (simpl; lia).
  split; [exact H|].
  exact (proj2 (@NewKeyPair_contract Toy.suite toy_laws Toy.randoms) H).
Defined.

Lemma tampering_detected_witness :
  @Verify Toy.suite Toy.pk Toy.hello [[x02]; [x09]]
    = Fail (@tamper_error Toy.suite [x02])
  /\ @Verify Toy.suite Toy.pk Toy.hello [[x03]; [x0d]]
    = Fail (@tamper_error Toy.suite [x0d]).
Proof.
  split.
  - apply (proj1 (@tampering_detected Toy.suite toy_laws toy_nondegenerate
             toy_flip_sensitive
             Toy.randoms Toy.PriKey Toy.PubKey Toy.sk Toy.pk
             (Toy.el 4) (Toy.el 7) Toy.hello (Toy.el 3) [x03] [x09] [x02] 0
             toy_NewKeyPair toy_decodeScalars toy_decodePoints
             eq_refl eq_refl eq_refl)).
    + reflexivity.
    + intro H. apply (f_equal Zmod.to_Z) in H. vm_compute in H. discriminate.
  - apply (proj2 (@tampering_detected Toy.suite toy_laws toy_nondegenerate
             toy_flip_sensitive
             Toy.randoms Toy.PriKey Toy.PubKey Toy.sk Toy.pk
             (Toy.el 4) (Toy.el 7) Toy.hello (Toy.el 3) [x03] [x09] [x0d] 2
             toy_NewKeyPair toy_decodeScalars toy_decodePoints
             eq_refl eq_refl eq_refl)).
    reflexivity.
Defined.

(** C7, as stated, fails: on the small suite the signature of [hello] under
    the keys above with [h = 3] is [[x03]; [x09]]; flipping bit 7 of its
    first component gives [x83], which is no encoding, and [Verify] returns
    the suite's decoding error, not the invalid-signature error. *)
Lemma tampering_decoding_error :
  @NewKeyPair Toy.suite Toy.randoms = Ret (Toy.PriKey, Toy.PubKey)
  /\ @decodeScalars Toy.suite Toy.PriKey = Ret Toy.sk
  /\ @decodePoints Toy.suite G2 Toy.PubKey = Ret Toy.pk
  /\ @Sign Toy.suite Toy.sk Toy.hello (Toy.el 3) = Ret [[x03]; [x09]]
  /\ flip_bit [x03] 7 = Ret [x83]
  /\ @Verify Toy.suite Toy.pk Toy.hello [[x83]; [x09]]
     = Fail (ErrEncoding "malformed element")
  /\ @Verify Toy.suite Toy.pk Toy.hello [[x83]; [x09]]
     <> Fail ErrInvalidSignature.
Proof.
  repeat split; try (vm_compute; reflexivity).
  vm_compute. discriminate.
Qed.

Lemma Verify_is_PSBatchVerify_singleton_witness :
  @Verify Toy.suite Toy.pk Toy.hello [[x03]; [x09]]
  = @PSBatchVerify Toy.suite Toy.pk [Toy.hello] [[x03]; [x09]].
Proof.
  exact (@Verify_is_PSBatchVerify_singleton Toy.suite toy_laws
           Toy.pk Toy.hello [[x03]; [x09]]).
Defined.

Lemma batch_index_safety_witness :
  (Z.of_nat (length [Toy.hello; Toy.m2; Toy.m3])
     <= Z.of_nat (length Toy.sk) - 1)%Z
  /\ (forall i, i < length [Toy.hello; Toy.m2; Toy.m3] ->
        exists k, index Toy.sk (i + 1) = Ret k)
  /\ (forall y, exists y',
        @BatchSign_loop Toy.suite Toy.sk 0 [Toy.hello; Toy.m2; Toy.m3] y = Ret y')
  /\ (forall h,
        @BatchSign Toy.suite Toy.sk [Toy.hello; Toy.m2; Toy.m3] h <> Panic).
Proof.
  assert ((Z.of_nat (length [Toy.hello; Toy.m2; Toy.m3])
             <= Z.of_nat (length Toy.sk) - 1)%Z) as H by (simpl; lia).
  split; [exact H|].
  exact (proj1 (@batch_index_safety Toy.suite Toy.sk Toy.pk
                  [Toy.hello; Toy.m2; Toy.m3]) H).
Defined.

Lemma Sign_ignores_later_slots_witness :
  @Sign Toy.suite [Toy.el 4; Toy.el 7; Toy.el 9] Toy.hello (Toy.el 3)
  = @Sign Toy.suite [Toy.el 4; Toy.el 7; Toy.el 2; Toy.el 5] Toy.hello (Toy.el 3).
Proof.
  apply (@Sign_ignores_later_slots Toy.suite);
    [simpl; lia|simpl; lia|reflexivity|reflexivity].
Defined.

(** ** More on the code alone: outcomes, shapes and what is read *)

Section Outcomes.
Context {suite : Suite}.

Lemma NewKeyPair_pri_outcome randoms :
  NewKeyPair_pri randoms <> Panic
  /\ (forall e, NewKeyPair_pri randoms = Fail e -> exists msg, e = ErrEncoding msg)
  /\ (forall PriKey, NewKeyPair_pri randoms = Ret PriKey ->
        length PriKey = length randoms).
Proof.
  induction randoms as [|r rest (IP & IF & IR)]; cbn [NewKeyPair_pri].
  - repeat split; try discriminate. intros P H. inversion H. reflexivity.
  - destruct (ScalarMarshal (Pick r)) as [b|m]; cbn [try bind].
    + destruct (NewKeyPair_pri rest) as [P| |]; cbn [bind].
      * repeat split; try discriminate.
        intros P' H. inversion H. cbn [length]. rewrite (IR P eq_refl).
        reflexivity.
      * repeat split; try discriminate.
        intros e' H. inversion H; subst. apply IF. reflexivity.
      * contradiction.
    + repeat split; try discriminate.
      intros e H. inversion H. eauto.
Qed.

Lemma NewKeyPair_pub_outcome PriKey :
  NewKeyPair_pub PriKey <> Panic
  /\ (forall e, NewKeyPair_pub PriKey = Fail e -> exists msg, e = ErrEncoding msg)
  /\ (forall PubKey, NewKeyPair_pub PriKey = Ret PubKey ->
        length PubKey = length PriKey).
Proof.
  induction PriKey as [|b rest (IP & IF & IR)]; cbn [NewKeyPair_pub].
  - repeat split; try discriminate. intros P H. inversion H. reflexivity.
  - destruct (ScalarUnmarshal b) as [k|m]; cbn [try bind].
    + destruct (MarshalBinary G2 _) as [c|m]; cbn [try bind].
      * destruct (NewKeyPair_pub rest) as [P| |]; cbn [bind].
        -- repeat split; try discriminate.
           intros P' H. inversion H. cbn [length]. rewrite (IR P eq_refl).
           reflexivity.
        -- repeat split; try discriminate.
           intros e' H. inversion H; subst. apply IF. reflexivity.
        -- contradiction.
      * repeat split; try discriminate.
        intros e H. inversion H. eauto.
    + repeat split; try discriminate.
      intros e H. inversion H. eauto.
Qed.

(** X1 (how key generation can end, on any suite).  [NewKeyPair] never
    panics.  It returns the need-two-randoms error exactly when fewer than
    two streams are given; any other error is one the suite's marshalling
    returned, and it is never the invalid-signature error.  When it returns
    keys there were at least two streams, and each key has one entry per
    stream. *)
Theorem NewKeyPair_outcomes (randoms : list Stream) :
  NewKeyPair randoms <> Panic
  /\ (NewKeyPair randoms = Fail ErrNeedTwoRandoms <-> length randoms < 2)
  /\ (forall e, NewKeyPair randoms = Fail e ->
        e = ErrNeedTwoRandoms \/ exists msg, e = ErrEncoding msg)
  /\ (forall PriKey PubKey, NewKeyPair randoms = Ret (PriKey, PubKey) ->
        2 <= length randoms
        /\ length PriKey = length randoms /\ length PubKey = length randoms).
Proof.
  unfold NewKeyPair.
  destruct (Nat.ltb_spec (length randoms) 2) as [Hlt|Hge].
  { split; [discriminate|]. split; [tauto|]. split.
    - intros e H. inversion H. left. reflexivity.
    - discriminate. }
  pose proof (NewKeyPair_pri_outcome randoms) as (P1 & F1 & R1).
  destruct (NewKeyPair_pri randoms) as [PriKey|e1|]; cbn [bind];
    [|clear P1 R1|contradiction].
  - pose proof (NewKeyPair_pub_outcome PriKey) as (P2 & F2 & R2).
    destruct (NewKeyPair_pub PriKey) as [PubKey|e2|]; cbn [bind];
      [|clear P2 R2|contradiction].
    + split; [discriminate|]. split; [split; [discriminate|lia]|].
      split; [discriminate|].
      intros P' Q' H. inversion H; subst P' Q'.
      rewrite (R2 _ eq_refl), (R1 _ eq_refl). auto.
    + destruct (F2 _ eq_refl) as [m ->].
      split; [discriminate|]. split; [split; [discriminate|lia]|].
      split; [|discriminate].
      intros e H. inversion H. right. eauto.
  - destruct (F1 _ eq_refl) as [m ->].
    split; [discriminate|]. split; [split; [discriminate|lia]|].
    split; [|discriminate].
    intros e H. inversion H. right. eauto.
Qed.

Lemma index_Ret_length {A : Type} (s : list A) (i : nat) (a : A) :
  index s i = Ret a -> i < length s.
Proof.
  intro H. apply index_nth_error in H.
  apply nth_error_Some. congruence.
Qed.

Lemma BatchSign_loop_Ret_length priKey msgs : forall i y y',
  BatchSign_loop priKey i msgs y = Ret y' ->
  msgs = [] \/ i + length msgs < length priKey.
Proof.
  intros i y y' H. destruct msgs as [|m rest]; [left; reflexivity|right].
  destruct (Nat.lt_ge_cases (i + length (m :: rest)) (length priKey))
    as [L|L]; [exact L|].
  rewrite BatchSign_loop_panics in H by (assumption || discriminate).
  discriminate.
Qed.

(** X2 (what a returned signature tells).  Whenever one of the four signing
    functions returns a signature, it has exactly two components.  For
    [Sign], [BatchSign] and [AggreSign] the first component is the encoding
    of the point drawn ([h], or [g1^t]), and the private key was long enough
    for every slot read: at least 2 entries, and for [BatchSign] more
    entries than messages.  For [AggregatePSSign] the incoming signature had
    at least two components. *)
Theorem returned_signature_shape :
  (forall priKey msg h S, Sign priKey msg h = Ret S ->
     exists b1 b2, S = [b1; b2] /\ MarshalBinary G1 h = Done b1
       /\ 2 <= length priKey)
  /\ (forall priKey msgs h S, BatchSign priKey msgs h = Ret S ->
     exists b1 b2, S = [b1; b2] /\ MarshalBinary G1 h = Done b1
       /\ length msgs < length priKey)
  /\ (forall priKey msg t S, AggreSign priKey msg t = Ret S ->
     exists b1 b2, S = [b1; b2]
       /\ MarshalBinary G1 (Mul G1 t (Base G1)) = Done b1
       /\ 2 <= length priKey)
  /\ (forall y S0 msg t S, AggregatePSSign y S0 msg t = Ret S ->
     length S = 2 /\ 2 <= length S0).
Proof.
  split; [|split; [|split]].
  - intros priKey msg h S. unfold Sign.
    destruct (MarshalBinary G1 h) as [c|]; cbn [try bind]; [|discriminate].
    destruct (index priKey 1) eqn:I1; cbn [bind]; try discriminate.
    destruct (index priKey 0); cbn [bind]; try discriminate.
    destruct (MarshalBinary G1 _) as [d|]; cbn [try bind]; [|discriminate].
    intro H. inversion H. exists c, d. repeat split.
    apply index_Ret_length in I1. lia.
  - intros priKey msgs h S. unfold BatchSign.
    destruct (MarshalBinary G1 h) as [c|]; cbn [try bind]; [|discriminate].
    destruct (BatchSign_loop priKey 0 msgs NewScalar) eqn:L; cbn [bind];
      try discriminate.
    destruct (index priKey 0) eqn:I0; cbn [bind]; try discriminate.
    destruct (MarshalBinary G1 _) as [d|]; cbn [try bind]; [|discriminate].
    intro H. inversion H. exists c, d. repeat split.
    apply index_Ret_length in I0.
    destruct (BatchSign_loop_Ret_length _ _ _ _ _ L) as [->|L']; cbn; lia.
  - intros priKey msg t S. unfold AggreSign.
    destruct (MarshalBinary G1 _) as [c|]; cbn [try bind]; [|discriminate].
    destruct (index priKey 1) eqn:I1; cbn [bind]; try discriminate.
    destruct (index priKey 0); cbn [bind]; try discriminate.
    destruct (MarshalBinary G1 _) as [d|]; cbn [try bind]; [|discriminate].
    intro H. inversion H. exists c, d. repeat split.
    apply index_Ret_length in I1. lia.
  - intros y S0 msg t S. unfold AggregatePSSign.
    destruct (index S0 0); cbn [bind]; try discriminate.
    destruct (UnmarshalBinary G1 _); cbn [try bind]; [|discriminate].
    destruct (MarshalBinary G1 _); cbn [try bind]; [|discriminate].
    destruct (index S0 1) eqn:I1; cbn [bind]; try discriminate.
    destruct (UnmarshalBinary G1 _); cbn [try bind]; [|discriminate].
    destruct (MarshalBinary G1 _); cbn [try bind]; [|discriminate].
    intro H. inversion H. split; [reflexivity|].
    apply index_Ret_length in I1. lia.
Qed.

(** X3 (when signing and verifying panic).  [Sign] panics exactly when the
    drawn point marshals and the private key has fewer than 2 entries.
    [Verify] panics exactly when the public key has fewer than 2 entries, or
    the signature is empty, or the signature has one component only and that
    one decodes. *)
Theorem panic_conditions :
  (forall priKey msg h,
     Sign priKey msg h = Panic
     <-> length priKey < 2 /\ exists b, MarshalBinary G1 h = Done b)
  /\ (forall pubKey msg S,
     Verify pubKey msg S = Panic
     <-> length pubKey < 2 \/ S = []
         \/ exists b1 s1, S = [b1] /\ UnmarshalBinary G1 b1 = Done s1).
Proof.
  split.
  - intros priKey msg h. unfold Sign.
    destruct (MarshalBinary G1 h) as [c|e]; cbn [try bind].
    + destruct priKey as [|x [|y rest]]; cbn [index nth_error bind length].
      * split; [intros _; split; [lia|eauto]|reflexivity].
      * split; [intros _; split; [lia|eauto]|reflexivity].
      * destruct (MarshalBinary G1 _); cbn [try bind];
          (split; [discriminate|intros [L _]; lia]).
    + split; [discriminate|intros [_ [b Hb]]; discriminate].
  - intros pubKey msg S. unfold Verify.
    destruct pubKey as [|p0 [|p1 rest]]; cbn [index nth_error bind length].
    + split; [intros _; left; lia|reflexivity].
    + split; [intros _; left; lia|reflexivity].
    + destruct S as [|b1 [|b2 S']]; cbn [index nth_error bind].
      * split; [intros _; right; left; reflexivity|reflexivity].
      * destruct (UnmarshalBinary G1 b1) as [s1|e] eqn:U1; cbn [try bind].
        -- split; [intros _; right; right; eauto|reflexivity].
        -- split; [discriminate|].
           intros [L|[E|(c & s & E & U)]]; [lia|discriminate|].
           inversion E; subst c. congruence.
      * assert (~ (S (S (length rest)) < 2 \/ b1 :: b2 :: S' = []
                   \/ exists c s, b1 :: b2 :: S' = [c]
                        /\ UnmarshalBinary G1 c = Done s)) as N.
        { intros [L|[E|(c & s & E & U)]]; [lia|discriminate|discriminate]. }
        destruct (UnmarshalBinary G1 b1); cbn [try bind];
          [|split; [discriminate|intro; contradiction]].
        destruct (UnmarshalBinary G1 b2); cbn [try bind];
          [|split; [discriminate|intro; contradiction]].
        destruct (negb _); split; try discriminate; intro; contradiction.
Qed.

Lemma nth_error_firstn_agree {A : Type} (n : nat) (l l' : list A) :
  firstn n l = firstn n l' ->
  forall j, j < n -> nth_error l j = nth_error l' j.
Proof.
  intros E j Hj.
  assert (nth_error (firstn n l) j = nth_error (firstn n l') j) as H
    by (rewrite E; reflexivity).
  rewrite !nth_error_firstn in H.
  destruct (Nat.ltb_spec j n); [exact H|lia].
Qed.

Lemma index_ext {A : Type} (l l' : list A) (j : nat) :
  nth_error l j = nth_error l' j -> index l j = index l' j.
Proof. intro H. unfold index. rewrite H. reflexivity. Qed.

Lemma BatchSign_loop_ext priKey priKey' msgs : forall i y,
  (forall j, j <= i + length msgs -> nth_error priKey j = nth_error priKey' j) ->
  BatchSign_loop priKey i msgs y = BatchSign_loop priKey' i msgs y.
Proof.
  induction msgs as [|m rest IH]; intros i y H; [reflexivity|].
  cbn [BatchSign_loop length] in *.
  rewrite (index_ext priKey priKey' (i + 1)) by (apply H; lia).
  destruct (index priKey' (i + 1)); cbn [bind]; try reflexivity.
  apply IH. intros j Hj. apply H. lia.
Qed.

Lemma PSBatchVerify_loop_ext pubKey pubKey' msgs : forall i Y,
  (forall j, j <= i + length msgs -> nth_error pubKey j = nth_error pubKey' j) ->
  PSBatchVerify_loop pubKey i msgs Y = PSBatchVerify_loop pubKey' i msgs Y.
Proof.
  induction msgs as [|m rest IH]; intros i Y H; [reflexivity|].
  cbn [PSBatchVerify_loop length] in *.
  rewrite (index_ext pubKey pubKey' (i + 1)) by (apply H; lia).
  destruct (index pubKey' (i + 1)); cbn [bind]; try reflexivity.
  apply IH. intros j Hj. apply H. lia.
Qed.

(** X4 (the batch functions read a prefix of the key).  With [k] messages,
    [BatchSign] reads the private-key slots [0 .. k] and [PSBatchVerify] the
    public-key slots [0 .. k], and nothing after them: two keys with the same
    first [k + 1] entries give the same outcome, be it a signature, an error
    or a panic. *)
Theorem batch_reads_key_prefix (msgs : list bytes) :
  (forall priKey priKey' h,
     firstn (S (length msgs)) priKey = firstn (S (length msgs)) priKey' ->
     BatchSign priKey msgs h = BatchSign priKey' msgs h)
  /\ (forall pubKey pubKey' sg,
     firstn (S (length msgs)) pubKey = firstn (S (length msgs)) pubKey' ->
     PSBatchVerify pubKey msgs sg = PSBatchVerify pubKey' msgs sg).
Proof.
  split.
  - intros priKey priKey' h E. unfold BatchSign.
    pose proof (nth_error_firstn_agree _ _ _ E) as A.
    rewrite (BatchSign_loop_ext priKey priKey' msgs 0 NewScalar)
      by (intros j Hj; apply A; cbn in Hj; lia).
    rewrite (index_ext priKey priKey' 0) by (apply A; lia).
    reflexivity.
  - intros pubKey pubKey' sg E. unfold PSBatchVerify.
    pose proof (nth_error_firstn_agree _ _ _ E) as A.
    rewrite (PSBatchVerify_loop_ext pubKey pubKey' msgs 0 (NewPoint G2))
      by (intros j Hj; apply A; cbn in Hj; lia).
    rewrite (index_ext pubKey pubKey' 0) by (apply A; lia).
    reflexivity.
Qed.

End Outcomes.

(** ** More on the laws: how the signers relate *)

Section Relations.
Context {suite : Suite} {laws : SuiteLaws suite}.

(** X5 (the single signer is the batch signer on one message).  For every
    private key, message and drawn point, [Sign] on [msg] and [BatchSign] on
    [[msg]] end the same way: the same signature bytes, the same error, or
    the same panic. *)
Theorem Sign_is_BatchSign_singleton (priKey : list Scalar) (msg : bytes)
  (h : Point G1) :
  Sign priKey msg h = BatchSign priKey [msg] h.
Proof.
  unfold Sign, BatchSign.
  destruct (MarshalBinary G1 h); cbn [try bind]; [|reflexivity].
  cbn [BatchSign_loop]. change (0 + 1) with 1.
  destruct (index priKey 1); cbn [bind]; try reflexivity.
  rewrite ScalarAdd_NewScalar_l. reflexivity.
Qed.

(** X6 (the first link of a chain is a plain signature).  [AggreSign] with
    drawn scalar [t] ends exactly as [Sign] does when it draws the point
    [g1^t]: the same two components, the same error, or the same panic. *)
Theorem AggreSign_is_Sign (priKey : list Scalar) (msg : bytes) (t : Scalar) :
  AggreSign priKey msg t = Sign priKey msg (Mul G1 t (Base G1)).
Proof.
  unfold AggreSign, Sign.
  destruct (MarshalBinary G1 (Mul G1 t (Base G1))); cbn [try bind];
    [|reflexivity].
  destruct (index priKey 1); cbn [bind]; try reflexivity.
  destruct (index priKey 0); cbn [bind]; try reflexivity.
  rewrite (Mul_smul G1_laws). reflexivity.
Qed.

(** *** Signatures as encodings *)

Lemma BatchSign_encodes sk x msgs h :
  index sk 0 = Ret x -> length msgs < length sk ->
  exists b1 b2,
    BatchSign sk msgs h = Ret [b1; b2]
    /\ MarshalBinary G1 h = Done b1
    /\ MarshalBinary G1 (Mul G1 (key_sum (skipn 1 sk) msgs x) h) = Done b2.
Proof.
  intros I0 L. unfold BatchSign.
  destruct (Marshal_total G1_laws h) as [b1 M1].
  rewrite M1. cbn [try bind].
  rewrite BatchSign_loop_safe by (left; lia). cbn [bind].
  rewrite I0. cbn [bind]. change (0 + 1) with 1.
  rewrite key_sum_shift, ScalarAdd_NewScalar_r.
  destruct (Marshal_total G1_laws (Mul G1 (key_sum (skipn 1 sk) msgs x) h))
    as [b2 M2].
  rewrite M2. cbn [try bind].
  exists b1, b2. repeat split; assumption.
Qed.

Lemma Sign_encodes sk x y msg h :
  index sk 0 = Ret x -> index sk 1 = Ret y ->
  exists b1 b2,
    Sign sk msg h = Ret [b1; b2]
    /\ MarshalBinary G1 h = Done b1
    /\ MarshalBinary G1
         (Mul G1 (ScalarAdd x (ScalarMul y (SetBytes msg))) h) = Done b2.
Proof.
  intros I0 I1. unfold Sign.
  destruct (Marshal_total G1_laws h) as [b1 M1].
  rewrite M1, I1, I0. cbn [try bind].
  destruct (Marshal_total G1_laws
              (Mul G1 (ScalarAdd x (ScalarMul y (SetBytes msg))) h))
    as [b2 M2].
  rewrite M2. cbn [try bind].
  exists b1, b2. repeat split; assumption.
Qed.

Lemma AggregatePSSign_encodes y msg t b1 b2 s1 E :
  MarshalBinary G1 s1 = Done b1 -> MarshalBinary G1 (Mul G1 E s1) = Done b2 ->
  exists c1 c2,
    AggregatePSSign y [b1; b2] msg t = Ret [c1; c2]
    /\ MarshalBinary G1 (Mul G1 t s1) = Done c1
    /\ MarshalBinary G1
         (Mul G1 (ScalarAdd E (ScalarMul y (SetBytes msg))) (Mul G1 t s1))
       = Done c2.
Proof.
  intros M1 M2. unfold AggregatePSSign.
  cbn [index nth_error bind].
  rewrite (Marshal_inv G1_laws _ M1). cbn [try bind].
  destruct (Marshal_total G1_laws (Mul G1 t s1)) as [c1 N1].
  rewrite N1. cbn [try bind].
  rewrite (Marshal_inv G1_laws _ M2). cbn [try bind].
  rewrite link_exponent.
  destruct (Marshal_total G1_laws
              (Mul G1 (ScalarAdd E (ScalarMul y (SetBytes msg))) (Mul G1 t s1)))
    as [c2 N2].
  rewrite N2. cbn [try bind].
  exists c1, c2. repeat split; assumption.
Qed.

Lemma extend_encodes links : forall b1 b2 s1 E,
  MarshalBinary G1 s1 = Done b1 -> MarshalBinary G1 (Mul G1 E s1) = Done b2 ->
  exists c1 c2,
    extend [b1; b2] links = Ret [c1; c2]
    /\ MarshalBinary G1 (chain_point s1 links) = Done c1
    /\ MarshalBinary G1
         (Mul G1 (chain_exponent E links) (chain_point s1 links)) = Done c2.
Proof.
  induction links as [|[[y msg] t] rest IH]; intros b1 b2 s1 E M1 M2.
  - exists b1, b2. repeat split; assumption.
  - destruct (AggregatePSSign_encodes y msg t b1 b2 s1 E M1 M2)
      as (c1 & c2 & HA & N1 & N2).
    cbn [extend chain_point chain_exponent]. rewrite HA. cbn [bind].
    apply (IH c1 c2 _ _ N1 N2).
Qed.

Lemma chain_exponent_key_sum links : forall ys E,
  link_scalars links = firstn (length links) ys ->
  chain_exponent E links = key_sum ys (link_msgs links) E.
Proof.
  induction links as [|[[y msg] t] rest IH]; intros ys E H; [reflexivity|].
  destruct ys as [|y0 ys]; [discriminate|].
  cbn in H. inversion H as [[Hy Hrest]].
  cbn [chain_exponent link_msgs map fst snd key_sum].
  apply IH. exact Hrest.
Qed.

Lemma skipn_1_2 (sk : list Scalar) y1 :
  index sk 1 = Ret y1 -> skipn 1 sk = y1 :: skipn 2 sk.
Proof.
  destruct sk as [|x [|y rest]]; cbn; try discriminate.
  intro H. inversion H. reflexivity.
Qed.

(** X7 (a chain is a batch signature).  When the links of a chain carry the
    private scalars of slots 2, 3, ... in order, the aggregation
    [AggreSign] followed by one [AggregatePSSign] per link returns byte for
    byte what [BatchSign] returns with the whole private key on all the
    messages, when the point it draws is [g1] raised to the product of the
    [t]s of the chain. *)
Theorem aggregate_is_BatchSign (sk : list Scalar) (m1 : bytes) (t : Scalar)
  (links : list (Scalar * bytes * Scalar)) :
  length links + 2 <= length sk ->
  link_scalars links = firstn (length links) (skipn 2 sk) ->
  aggregate sk m1 t links
    = BatchSign sk (m1 :: link_msgs links)
        (chain_point (Mul G1 t (Base G1)) links).
Proof.
  intros L H.
  destruct (two_slots sk) as (x & y1 & I0 & I1); [lia|].
  unfold aggregate. rewrite AggreSign_is_Sign.
  destruct (Sign_encodes sk x y1 m1 (Mul G1 t (Base G1)) I0 I1)
    as (b1 & b2 & HS & M1 & M2).
  rewrite HS. cbn [bind].
  destruct (extend_encodes links b1 b2 _ _ M1 M2) as (c1 & c2 & HE & N1 & N2).
  rewrite HE.
  destruct (BatchSign_encodes sk x (m1 :: link_msgs links)
              (chain_point (Mul G1 t (Base G1)) links) I0)
    as (d1 & d2 & HB & P1 & P2).
  { cbn [length]. unfold link_msgs. rewrite length_map. lia. }
  rewrite HB.
  rewrite (skipn_1_2 sk y1 I1) in P2. cbn [key_sum] in P2.
  rewrite <- (chain_exponent_key_sum links _ _ H) in P2.
  congruence.
Qed.

End Relations.

(** ** Chains of any length, and keys cut short *)

Section Chains.
Context {suite : Suite} {laws : SuiteLaws suite}.

Lemma extended_Sign_verifies sk pk m1 h links :
  matching sk pk -> length links + 2 <= length sk ->
  link_scalars links = firstn (length links) (skipn 2 sk) ->
  exists S0 S,
    Sign sk m1 h = Ret S0 /\ extend S0 links = Ret S
    /\ PSBatchVerify pk (m1 :: link_msgs links) S = Ret tt.
Proof.
  intros M L H.
  destruct (two_slots sk) as (x & y1 & I0 & I1); [lia|].
  destruct (Sign_decodes sk x y1 m1 h I0 I1) as (S0 & HS & D0).
  destruct (extend_invariant links S0 _ _ _ D0 eq_refl)
    as (S & s1 & s2 & HE & D & HX).
  exists S0, S. split; [exact HS|]. split; [exact HE|].
  rewrite (PSBatchVerify_matching sk pk x _ S M I0)
    by (cbn [length]; unfold link_msgs; rewrite length_map; lia).
  eapply verdict_accepts; [exact D|exact HX|].
  rewrite (skipn_1_2 sk y1 I1). cbn [key_sum].
  rewrite (chain_exponent_key_sum links _ _ H). reflexivity.
Qed.

(** X8 (chains of any length verify, from either signer).  Take the keys a
    caller holds after [NewKeyPair] and any number of links that carry the
    private scalars of slots 2, 3, ... in order.  Extending a signature
    with one [AggregatePSSign] per link returns at every step, and
    [PSBatchVerify] with the whole public key and all the messages in order
    returns no error on the result, whether the first signature came from
    [AggreSign] or from a plain [Sign] with any drawn point. *)
Theorem extended_signature_verifies (randoms : list Stream)
  (PriKey PubKey : list bytes) (sk : list Scalar) (pk : list (Point G2))
  (m1 : bytes) (links : list (Scalar * bytes * Scalar)) :
  NewKeyPair randoms = Ret (PriKey, PubKey) ->
  decodeScalars PriKey = Ret sk -> decodePoints G2 PubKey = Ret pk ->
  length links + 2 <= length sk ->
  link_scalars links = firstn (length links) (skipn 2 sk) ->
  (forall h, exists S0 S,
      Sign sk m1 h = Ret S0 /\ extend S0 links = Ret S
      /\ PSBatchVerify pk (m1 :: link_msgs links) S = Ret tt)
  /\ (forall t, exists S,
      aggregate sk m1 t links = Ret S
      /\ PSBatchVerify pk (m1 :: link_msgs links) S = Ret tt).
Proof.
  intros HN Hs Hp L H.
  destruct (NewKeyPair_keys _ _ _ _ _ HN Hs Hp) as (_ & _ & M).
  split.
  - intro h. apply extended_Sign_verifies; assumption.
  - intro t.
    destruct (extended_Sign_verifies sk pk m1 (Mul G1 t (Base G1)) links M L H)
      as (S0 & S & HS & HE & HV).
    exists S. split; [|exact HV].
    unfold aggregate. rewrite AggreSign_is_Sign, HS. exact HE.
Qed.

Lemma key_sum_firstn msgs : forall ys k a,
  length msgs <= k -> key_sum (firstn k ys) msgs a = key_sum ys msgs a.
Proof.
  induction msgs as [|m rest IH]; intros ys k a L; [reflexivity|].
  cbn [length] in L. destruct k as [|k]; [lia|].
  destruct ys as [|y ys]; [reflexivity|].
  cbn [firstn key_sum]. apply IH. lia.
Qed.

(** X9 (a private key cut short still signs for the whole public key).  As
    the batch tests do with [BpriKey[:len(BpriKey)-1]]: for the keys a caller
    holds after [NewKeyPair], [BatchSign] with only the first [n] private
    entries, on fewer than [n] messages, returns a signature on which
    [PSBatchVerify] with the whole public key returns no error. *)
Theorem truncated_key_roundtrip (randoms : list Stream)
  (PriKey PubKey : list bytes) (sk : list Scalar) (pk : list (Point G2))
  (n : nat) (msgs : list bytes) (h : Point G1) :
  NewKeyPair randoms = Ret (PriKey, PubKey) ->
  decodeScalars PriKey = Ret sk -> decodePoints G2 PubKey = Ret pk ->
  length msgs < n -> n <= length sk ->
  exists S,
    BatchSign (firstn n sk) msgs h = Ret S
    /\ PSBatchVerify pk msgs S = Ret tt.
Proof.
  intros HN Hs Hp Ln Lk.
  destruct (NewKeyPair_keys _ _ _ _ _ HN Hs Hp) as (_ & _ & M).
  destruct (index_in_range sk 0) as [x I0]; [lia|].
  assert (index (firstn n sk) 0 = Ret x) as I0'.
  { apply index_nth_error. apply index_nth_error in I0.
    rewrite nth_error_firstn.
    destruct (Nat.ltb_spec 0 n); [exact I0|lia]. }
  destruct (BatchSign_decodes (firstn n sk) x msgs h I0') as (S & HS & D).
  { rewrite length_firstn. lia. }
  exists S. split; [exact HS|].
  rewrite (PSBatchVerify_matching sk pk x msgs S M I0) by lia.
  eapply verdict_accepts; [exact D|reflexivity|].
  rewrite skipn_firstn_comm, key_sum_firstn by lia. reflexivity.
Qed.

(** X10 (every way [AggregatePSSign] can end).  On an empty signature it
    panics.  When the first component does not decode it returns the suite's
    decoding error, whatever follows.  When the first decodes and there is
    no second it panics.  When the first decodes and the second does not,
    it returns the decoding error of the second.  When both decode it
    returns the re-randomized pair [(sigma1^t, (sigma1^(y*m) * sigma2)^t)],
    without asking how [sigma2] relates to [sigma1] and without reading any
    further component. *)
Theorem AggregatePSSign_outcomes (y : Scalar) (msg : bytes) (t : Scalar) :
  AggregatePSSign y [] msg t = Panic
  /\ (forall b1 rest e,
       UnmarshalBinary G1 b1 = Failed e ->
       AggregatePSSign y (b1 :: rest) msg t = Fail (ErrEncoding e))
  /\ (forall b1 s1,
       UnmarshalBinary G1 b1 = Done s1 ->
       AggregatePSSign y [b1] msg t = Panic)
  /\ (forall b1 b2 rest s1 e,
       UnmarshalBinary G1 b1 = Done s1 -> UnmarshalBinary G1 b2 = Failed e ->
       AggregatePSSign y (b1 :: b2 :: rest) msg t = Fail (ErrEncoding e))
  /\ (forall b1 b2 rest s1 s2,
       UnmarshalBinary G1 b1 = Done s1 -> UnmarshalBinary G1 b2 = Done s2 ->
       exists S',
         AggregatePSSign y (b1 :: b2 :: rest) msg t = Ret S'
         /\ decodes_to S' (Mul G1 t s1)
              (Mul G1 t (Add G1 (Mul G1 (ScalarMul y (SetBytes msg)) s1) s2))).
Proof.
  split; [reflexivity|]. split; [|split; [|split]].
  - intros b1 rest e U. unfold AggregatePSSign.
    cbn [index nth_error bind]. rewrite U. reflexivity.
  - intros b1 s1 U. unfold AggregatePSSign.
    cbn [index nth_error bind]. rewrite U. cbn [try bind].
    destruct (Marshal_total G1_laws (Mul G1 t s1)) as [c Hc].
    rewrite Hc. reflexivity.
  - intros b1 b2 rest s1 e U1 U2. unfold AggregatePSSign.
    cbn [index nth_error bind]. rewrite U1. cbn [try bind].
    destruct (Marshal_total G1_laws (Mul G1 t s1)) as [c Hc].
    rewrite Hc. cbn [try bind]. rewrite U2. reflexivity.
  - intros b1 b2 rest s1 s2 U1 U2.
    destruct (AggregatePSSign_decodes y [b1; b2] msg t s1 s2) as (S' & HS & D).
    { exists b1, b2. repeat split; assumption. }
    exists S'. split; [|exact D]. rewrite <- HS. reflexivity.
Qed.

End Chains.

(** ** What a genuine signature verifies for *)

Section Rejection.
Context {suite : Suite} {laws : SuiteLaws suite} {nd : NonDegenerate suite}.

Lemma Pair_Base_inj (P P' : Point G1) :
  Pair P (Base G2) = Pair P' (Base G2) <-> P = P'.
Proof.
  split; [|intros ->; reflexivity].
  intro H. destruct (Pair_cancel _ _ _ H) as [E|E]; [exact E|].
  exfalso. exact (Base_not_null E).
Qed.

(** The verdict on a genuine pair [(h, h^E)] against the public element of
    another exponent [E']. *)
Lemma verdict_genuine E E' h b1 b2 :
  UnmarshalBinary G1 b1 = Done h ->
  UnmarshalBinary G1 b2 = Done (Mul G1 E h) ->
  (verdict (public_of E') [b1; b2] = Ret tt <-> Mul G1 E' h = Mul G1 E h)
  /\ (verdict (public_of E') [b1; b2] = Fail ErrInvalidSignature
      <-> Mul G1 E' h <> Mul G1 E h).
Proof.
  intros U1 U2.
  destruct (verdict_decision (public_of E') [b1; b2] b1 b2 eq_refl eq_refl)
    as (HD & _).
  destruct (HD h _ U1 U2) as [A B]. unfold public_of in A, B.
  rewrite <- Pair_Mul in A, B. rewrite Pair_Base_inj in A, B.
  split; assumption.
Qed.

(** X11 (which messages a signature verifies for).  Take the keys a caller
    holds after [NewKeyPair], with [x] and [y] in slots 0 and 1, and the
    signature [Sign] returns on [msg] with drawn point [h].  On another
    message [msg'], [Verify] returns no error exactly when [h^(x + y*m')]
    and [h^(x + y*m)] are the same point, and the invalid-signature error
    exactly when they differ.  In particular every message with the same
    [SetBytes] scalar as [msg] is accepted. *)
Theorem Verify_other_message (randoms : list Stream)
  (PriKey PubKey : list bytes) (sk : list Scalar) (pk : list (Point G2))
  (x y : Scalar) (msg msg' : bytes) (h : Point G1) (sg : list bytes) :
  NewKeyPair randoms = Ret (PriKey, PubKey) ->
  decodeScalars PriKey = Ret sk -> decodePoints G2 PubKey = Ret pk ->
  index sk 0 = Ret x -> index sk 1 = Ret y ->
  Sign sk msg h = Ret sg ->
  (Verify pk msg' sg = Ret tt
   <-> Mul G1 (ScalarAdd x (ScalarMul y (SetBytes msg'))) h
       = Mul G1 (ScalarAdd x (ScalarMul y (SetBytes msg))) h)
  /\ (Verify pk msg' sg = Fail ErrInvalidSignature
      <-> Mul G1 (ScalarAdd x (ScalarMul y (SetBytes msg'))) h
          <> Mul G1 (ScalarAdd x (ScalarMul y (SetBytes msg))) h)
  /\ (SetBytes msg' = SetBytes msg -> Verify pk msg' sg = Ret tt).
Proof.
  intros HN Hs Hp I0 I1 HS.
  destruct (NewKeyPair_keys _ _ _ _ _ HN Hs Hp) as (_ & _ & M).
  destruct (Sign_decodes sk x y msg h I0 I1) as (S' & HS' & D).
  rewrite HS in HS'. inversion HS'; subst S'.
  destruct D as (b1 & b2 & -> & U1 & U2).
  rewrite (Verify_matching sk pk x y msg' _ M I0 I1).
  destruct (verdict_genuine _ (ScalarAdd x (ScalarMul y (SetBytes msg')))
              h b1 b2 U1 U2) as [A B].
  split; [exact A|]. split; [exact B|].
  intro E. apply A. rewrite E. reflexivity.
Qed.

(** X12 (which message vectors a batch signature verifies for).  Take the
    keys a caller holds after [NewKeyPair], with [x] in slot 0, and the
    signature [BatchSign] returns on [msgs] with drawn point [h].  On
    another vector [msgs'], reordered or not, that the public key has slots
    for, [PSBatchVerify] returns no error exactly when [h] raised to
    [x + sum y_i*m'_i] and [h] raised to [x + sum y_i*m_i] are the same
    point, and the invalid-signature error exactly when they differ. *)
Theorem PSBatchVerify_other_messages (randoms : list Stream)
  (PriKey PubKey : list bytes) (sk : list Scalar) (pk : list (Point G2))
  (x : Scalar) (msgs msgs' : list bytes) (h : Point G1) (sg : list bytes) :
  NewKeyPair randoms = Ret (PriKey, PubKey) ->
  decodeScalars PriKey = Ret sk -> decodePoints G2 PubKey = Ret pk ->
  index sk 0 = Ret x ->
  length msgs < length sk -> length msgs' < length sk ->
  BatchSign sk msgs h = Ret sg ->
  (PSBatchVerify pk msgs' sg = Ret tt
   <-> Mul G1 (key_sum (skipn 1 sk) msgs' x) h
       = Mul G1 (key_sum (skipn 1 sk) msgs x) h)
  /\ (PSBatchVerify pk msgs' sg = Fail ErrInvalidSignature
      <-> Mul G1 (key_sum (skipn 1 sk) msgs' x) h
          <> Mul G1 (key_sum (skipn 1 sk) msgs x) h).
Proof.
  intros HN Hs Hp I0 L L' HS.
  destruct (NewKeyPair_keys _ _ _ _ _ HN Hs Hp) as (_ & _ & M).
  destruct (BatchSign_decodes sk x msgs h I0 L) as (S' & HS' & D).
  rewrite HS in HS'. inversion HS'; subst S'.
  destruct D as (b1 & b2 & -> & U1 & U2).
  rewrite (PSBatchVerify_matching sk pk x msgs' _ M I0 L').
  apply (verdict_genuine _ _ h b1 b2 U1 U2).
Qed.

End Rejection.

Section BatchTamper.
Context {suite : Suite} {laws : SuiteLaws suite} {nd : NonDegenerate suite}
  {fs : FlipSensitive suite}.

(** X13 (tampering with a batch signature is detected).  As the batch and
    aggregate tests do with [sig[0][0] ^= 0x01]: on a suite whose pairing
    does not collapse and where a flipped bit never leaves the encoding of
    a point an encoding of that same point, take keys from [NewKeyPair] and
    the signature [[b1; b2]] that [BatchSign] returns on [msgs], and flip
    one bit of a component.  [PSBatchVerify] on [msgs] then fails, with the
    suite's decoding error when the flipped component no longer decodes
    and the invalid-signature error when it still does; for a flip in the
    first component this needs the public element [X * prod Y_i^(m_i)] not
    to be the identity of G2. *)
Theorem batch_tampering_detected (randoms : list Stream)
  (PriKey PubKey : list bytes) (sk : list Scalar) (pk : list (Point G2))
  (x : Scalar) (msgs : list bytes) (h : Point G1) (b1 b2 b' : bytes)
  (pos : nat) :
  NewKeyPair randoms = Ret (PriKey, PubKey) ->
  decodeScalars PriKey = Ret sk -> decodePoints G2 PubKey = Ret pk ->
  index sk 0 = Ret x -> length msgs < length sk ->
  BatchSign sk msgs h = Ret [b1; b2] ->
  (flip_bit b1 pos = Ret b' ->
     public_of (key_sum (skipn 1 sk) msgs x) <> NewPoint G2 ->
     PSBatchVerify pk msgs [b'; b2] = Fail (tamper_error b'))
  /\ (flip_bit b2 pos = Ret b' ->
     PSBatchVerify pk msgs [b1; b'] = Fail (tamper_error b')).
Proof.
  intros HN Hs Hp I0 L HS.
  destruct (NewKeyPair_keys _ _ _ _ _ HN Hs Hp) as (_ & _ & M).
  destruct (BatchSign_encodes sk x msgs h I0 L) as (c1 & c2 & HS' & M1 & M2).
  rewrite HS in HS'. inversion HS'; subst c1 c2.
  pose proof (Marshal_inv G1_laws _ M1) as U1.
  pose proof (Marshal_inv G1_laws _ M2) as U2.
  split.
  - intros F NZ.
    rewrite (PSBatchVerify_matching sk pk x msgs _ M I0 L).
    apply (verdict_first_tampered _ h b2 b' U2); [|exact NZ].
    intros P' U'. exact (flip_moves_point pos M1 F U').
  - intros F.
    rewrite (PSBatchVerify_matching sk pk x msgs _ M I0 L).
    apply (verdict_second_tampered _ h b1 b' U1).
    intros P' U'. exact (flip_moves_point pos M2 F U').
Qed.

End BatchTamper.

(** ** The pair of identities *)

Section Identity.
Context {suite : Suite} {laws : SuiteLaws suite} {zero : ZeroLaws suite}.

Lemma Pair_NewPoint (Q Q' : Point G2) :
  Pair (NewPoint G1) Q = Pair (NewPoint G1) Q'.
Proof.
  rewrite <- (Mul_NewScalar_G1 (Base G1)), !Pair_Mul, !Mul_NewScalar_G2.
  reflexivity.
Qed.

(** X14 (the pair of identities passes every verification).  Neither
    verifier looks at whether [sigma1] is the identity of G1.  On a suite
    whose zero scalar sends every point to the identity, the signature
    whose two components both encode that identity makes [Verify] return no
    error for every public key of at least two entries and every message,
    and [PSBatchVerify] for every public key and every message vector it
    has slots for; such a signature exists. *)
Theorem identity_pair_accepted :
  (exists b0, UnmarshalBinary G1 b0 = Done (NewPoint G1))
  /\ (forall b0, UnmarshalBinary G1 b0 = Done (NewPoint G1) ->
      (forall pubKey msg, 2 <= length pubKey ->
         Verify pubKey msg [b0; b0] = Ret tt)
      /\ (forall pubKey msgs, length msgs < length pubKey ->
         PSBatchVerify pubKey msgs [b0; b0] = Ret tt)).
Proof.
  split.
  - destruct (marshal_ok G1 G1_laws (NewPoint G1)) as (b0 & _ & U). eauto.
  - intros b0 U. split.
    + intros pubKey msg L. rewrite Verify_verdict.
      destruct (index_in_range pubKey 1) as [p1 I1]; [lia|].
      destruct (index_in_range pubKey 0) as [p0 I0]; [lia|].
      rewrite I1, I0. cbn [bind].
      rewrite (verdict_decoded _ [b0; b0] b0 b0 _ _ eq_refl eq_refl U U).
      rewrite (Pair_NewPoint _ (Base G2)), Equal_refl. reflexivity.
    + intros pubKey msgs L. rewrite PSBatchVerify_verdict.
      rewrite PSBatchVerify_loop_safe by (left; lia). cbn [bind].
      destruct (index_in_range pubKey 0) as [p0 I0]; [lia|].
      rewrite I0. cbn [bind].
      rewrite (verdict_decoded _ [b0; b0] b0 b0 _ _ eq_refl eq_refl U U).
      rewrite (Pair_NewPoint _ (Base G2)), Equal_refl. reflexivity.
Qed.

End Identity.

(** ** The further statements at work on the small suite *)

Lemma toy_zero : ZeroLaws Toy.suite.
Proof. constructor; cbn; intros; apply Zmod.mul_0_l. Qed.

Lemma toy_Sign : @Sign Toy.suite Toy.sk Toy.hello (Toy.el 3) = Ret [[x03]; [x09]].
Proof. vm_compute. reflexivity. Defined.

Lemma toy_BatchSign :
  @BatchSign Toy.suite Toy.sk [Toy.hello; Toy.m2] (Toy.el 3)
  = Ret [[x03]; [x06]].
Proof. vm_compute. reflexivity. Defined.

Lemma NewKeyPair_outcomes_witness :
  2 <= length Toy.randoms
  /\ length Toy.PriKey = length Toy.randoms
  /\ length Toy.PubKey = length Toy.randoms.
Proof.
  exact (proj2 (proj2 (proj2 (@NewKeyPair_outcomes Toy.suite Toy.randoms)))
           Toy.PriKey Toy.PubKey toy_NewKeyPair).
Defined.

Lemma returned_signature_shape_witness :
  exists b1 b2, [[x03]; [x09]] = [b1; b2]
    /\ MarshalBinary (@G1 Toy.suite) (Toy.el 3) = Done b1
    /\ 2 <= length Toy.sk.
Proof.
  exact (proj1 (@returned_signature_shape Toy.suite)
           Toy.sk Toy.hello (Toy.el 3) [[x03]; [x09]] toy_Sign).
Defined.

Lemma panic_conditions_witness :
  @Sign Toy.suite [Toy.el 4] Toy.hello (Toy.el 3) = Panic
  /\ @Verify Toy.suite [Toy.el 4] Toy.hello [[x03]; [x09]] = Panic.
Proof.
  split.
  - apply (proj1 (@panic_conditions Toy.suite)). split.
    + simpl. lia.
    + exists [x03]. vm_compute. reflexivity.
  - apply (proj2 (@panic_conditions Toy.suite)). left. simpl. lia.
Defined.

Lemma batch_reads_key_prefix_witness :
  @BatchSign Toy.suite [Toy.el 4; Toy.el 7; Toy.el 9] [Toy.hello] (Toy.el 3)
  = @BatchSign Toy.suite [Toy.el 4; Toy.el 7; Toy.el 2; Toy.el 5] [Toy.hello]
      (Toy.el 3).
Proof.
  apply (proj1 (@batch_reads_key_prefix Toy.suite [Toy.hello])). reflexivity.
Defined.

Lemma Sign_is_BatchSign_singleton_witness :
  @Sign Toy.suite Toy.sk Toy.hello (Toy.el 3)
  = @BatchSign Toy.suite Toy.sk [Toy.hello] (Toy.el 3).
Proof.
  exact (@Sign_is_BatchSign_singleton Toy.suite toy_laws
           Toy.sk Toy.hello (Toy.el 3)).
Defined.

Lemma AggreSign_is_Sign_witness :
  @AggreSign Toy.suite Toy.sk Toy.hello (Toy.el 5)
  = @Sign Toy.suite Toy.sk Toy.hello (Zmod.mul (Toy.el 5) Zmod.one).
Proof.
  exact (@AggreSign_is_Sign Toy.suite toy_laws Toy.sk Toy.hello (Toy.el 5)).
Defined.

Lemma aggregate_is_BatchSign_witness :
  @aggregate Toy.suite Toy.sk Toy.hello (Toy.el 5)
    [(Toy.el 9, Toy.m2, Toy.el 7); (Toy.el 11, Toy.m3, Toy.el 6)]
  = @BatchSign Toy.suite Toy.sk [Toy.hello; Toy.m2; Toy.m3]
      (Zmod.mul (Toy.el 6) (Zmod.mul (Toy.el 7) (Zmod.mul (Toy.el 5) Zmod.one))).
Proof.
  apply (@aggregate_is_BatchSign Toy.suite toy_laws Toy.sk Toy.hello (Toy.el 5)
           [(Toy.el 9, Toy.m2, Toy.el 7); (Toy.el 11, Toy.m3, Toy.el 6)]).
  - simpl. lia.
  - vm_compute. reflexivity.
Defined.

Lemma extended_signature_verifies_witness :
  exists S0 S,
    @Sign Toy.suite Toy.sk Toy.hello (Toy.el 3) = Ret S0
    /\ @extend Toy.suite S0
         [(Toy.el 9, Toy.m2, Toy.el 7); (Toy.el 11, Toy.m3, Toy.el 6)] = Ret S
    /\ @PSBatchVerify Toy.suite Toy.pk [Toy.hello; Toy.m2; Toy.m3] S = Ret tt.
Proof.
  apply (proj1 (@extended_signature_verifies Toy.suite toy_laws Toy.randoms
                  Toy.PriKey Toy.PubKey Toy.sk Toy.pk Toy.hello
                  [(Toy.el 9, Toy.m2, Toy.el 7); (Toy.el 11, Toy.m3, Toy.el 6)]
                  toy_NewKeyPair toy_decodeScalars toy_decodePoints
                  ltac:(simpl; lia) ltac:(vm_compute; reflexivity))).
Defined.

Lemma truncated_key_roundtrip_witness :
  exists S,
    @BatchSign Toy.suite (firstn 3 Toy.sk) [Toy.hello; Toy.m2] (Toy.el 3) = Ret S
    /\ @PSBatchVerify Toy.suite Toy.pk [Toy.hello; Toy.m2] S = Ret tt.
Proof.
  apply (@truncated_key_roundtrip Toy.suite toy_laws Toy.randoms
           Toy.PriKey Toy.PubKey Toy.sk Toy.pk 3 [Toy.hello; Toy.m2] (Toy.el 3)
           toy_NewKeyPair toy_decodeScalars toy_decodePoints).
  - simpl. lia.
  - simpl. lia.
Defined.

Lemma AggregatePSSign_outcomes_witness :
  @AggregatePSSign Toy.suite (Toy.el 9) [[x83]; [x09]] Toy.m2 (Toy.el 7)
  = Fail (ErrEncoding "malformed element")
  /\ @AggregatePSSign Toy.suite (Toy.el 9) [[x03]] Toy.m2 (Toy.el 7) = Panic.
Proof.
  destruct (@AggregatePSSign_outcomes Toy.suite toy_laws (Toy.el 9) Toy.m2
              (Toy.el 7)) as (_ & H1 & H2 & _).
  split.
  - apply H1. vm_compute. reflexivity.
  - apply (H2 [x03] (Toy.el 3)). vm_compute. reflexivity.
Defined.

Lemma Verify_other_message_witness :
  @Verify Toy.suite Toy.pk (x00 :: Toy.hello) [[x03]; [x09]] = Ret tt.
Proof.
  apply (proj2 (proj2 (@Verify_other_message Toy.suite toy_laws
           toy_nondegenerate Toy.randoms Toy.PriKey Toy.PubKey Toy.sk Toy.pk
           (Toy.el 4) (Toy.el 7) Toy.hello (x00 :: Toy.hello) (Toy.el 3)
           [[x03]; [x09]]
           toy_NewKeyPair toy_decodeScalars toy_decodePoints
           eq_refl eq_refl toy_Sign))).
  vm_compute. reflexivity.
Defined.

Lemma PSBatchVerify_other_messages_witness :
  @PSBatchVerify Toy.suite Toy.pk [Toy.m2; Toy.hello] [[x03]; [x06]]
  = Fail ErrInvalidSignature.
Proof.
  apply (proj2 (@PSBatchVerify_other_messages Toy.suite toy_laws
           toy_nondegenerate Toy.randoms Toy.PriKey Toy.PubKey Toy.sk Toy.pk
           (Toy.el 4) [Toy.hello; Toy.m2] [Toy.m2; Toy.hello] (Toy.el 3)
           [[x03]; [x06]]
           toy_NewKeyPair toy_decodeScalars toy_decodePoints
           eq_refl ltac:(simpl; lia) ltac:(simpl; lia) toy_BatchSign)).
  intro H. apply (f_equal Zmod.to_Z) in H. vm_compute in H. discriminate.
Defined.

Lemma batch_tampering_detected_witness :
  @PSBatchVerify Toy.suite Toy.pk [Toy.hello; Toy.m2] [[x02]; [x06]]
    = Fail (@tamper_error Toy.suite [x02])
  /\ @PSBatchVerify Toy.suite Toy.pk [Toy.hello; Toy.m2] [[x03]; [x86]]
    = Fail (@tamper_error Toy.suite [x86]).
Proof.
  split.
  - apply (proj1 (@batch_tampering_detected Toy.suite toy_laws
             toy_nondegenerate toy_flip_sensitive Toy.randoms Toy.PriKey Toy.PubKey Toy.sk Toy.pk
             (Toy.el 4) [Toy.hello; Toy.m2] (Toy.el 3) [x03] [x06] [x02] 0
             toy_NewKeyPair toy_decodeScalars toy_decodePoints
             eq_refl ltac:(simpl; lia) toy_BatchSign)).
    + reflexivity.
    + intro H. apply (f_equal Zmod.to_Z) in H. vm_compute in H. discriminate.
  - apply (proj2 (@batch_tampering_detected Toy.suite toy_laws
             toy_nondegenerate toy_flip_sensitive Toy.randoms Toy.PriKey Toy.PubKey Toy.sk Toy.pk
             (Toy.el 4) [Toy.hello; Toy.m2] (Toy.el 3) [x03] [x06] [x86] 7
             toy_NewKeyPair toy_decodeScalars toy_decodePoints
             eq_refl ltac:(simpl; lia) toy_BatchSign)).
    reflexivity.
Defined.

Lemma identity_pair_accepted_witness :
  @Verify Toy.suite Toy.pk Toy.hello [[x00]; [x00]] = Ret tt
  /\ @PSBatchVerify Toy.suite Toy.pk [Toy.hello; Toy.m2; Toy.m3] [[x00]; [x00]]
     = Ret tt.
Proof.
  destruct (proj2 (@identity_pair_accepted Toy.suite toy_laws toy_zero) [x00])
    as [HV HB].
  - vm_compute. reflexivity.
  - split.
    + apply HV. simpl. lia.
    + apply HB. simpl. lia.
Defined.
